(** * Schema fitting over an operator graph (nvtabular/graph/graph.py) and the
    workflow inference operator (nvtabular/inference/graph/ops/workflow.py).

    Python objects live in a heap indexed by node identifiers; a node's
    [parents] and [dependencies] are lists of identifiers, so that sharing and
    cycles of the object graph are representable.  The in-place updates of
    [node.input_schema] / [node.output_schema] are updates of the heap. *)

From stdpp Require Import base option list sets gmap fin_maps strings relations pretty.

Set Default Proof Using "Type".

(** ** Column schemas *)

Inductive DType := int32 | int64 | float32 | float64 | bool_ | object_.

#[global] Instance DType_eq_dec : EqDecision DType.
Proof. solve_decision. Defined.

(** Modelled from the spec: a column descriptor (nvtabular/graph/schema.py is
    not part of the sources) is {dtype, tags: set of labels, properties:
    mapping}. *)
Record ColumnSchema := {
  dtype : DType;
  tags : gset string;
  properties : gmap string string
}.

#[global] Instance ColumnSchema_eq_dec : EqDecision ColumnSchema.
Proof. solve_decision. Defined.

(** Modelled from the spec: [Schema] (nvtabular/graph/schema.py, missing) is a
    mapping from column name (unique key) to column descriptor.  Equality of
    schemas is equality of the mappings; the position of a column inside the
    Python dict is not represented. *)
Abbreviation Schema := (gmap string ColumnSchema).

(** Modelled from the spec: [merge(a, b)] ([Schema.__add__], missing) is the
    union of the columns of [a] and [b]; for a name present in both, [b]'s
    descriptor replaces [a]'s. *)
Definition schema_merge (a b : Schema) : Schema := b ∪ a.

(** Modelled from the spec: [project(schema, names)] ([Schema.apply], missing)
    keeps the requested names that exist; absent requested names are dropped. *)
Definition schema_project (s : Schema) (names : list string) : Schema :=
  filter (λ kv, kv.1 ∈ names) s.

Definition column_names (s : Schema) : list string := (map_to_list s).*1.

(** ** Nodes *)

Module Node.
(** Modelled from the spec: [Node] (nvtabular/graph/node.py, missing) holds
    the operator's schema-computation capability, the ordered data-parents,
    the ordered dependency-parents, the declared input and output column
    names, and the two optional schemas. *)
Record t := mk {
  op : Schema → Schema * Schema;
  parents : list nat;
  dependencies : list nat;
  input_columns : list string;
  output_columns : list string;
  input_schema : option Schema;
  output_schema : option Schema
}.

(** Modelled from the spec: data-parents and dependency-parents combined. *)
Definition parents_with_dependencies (n : t) : list nat :=
  parents n ++ dependencies n.

(** Modelled from the spec: [compute_schema(combined) -> (input, output)],
    deterministic; the node stores both results and touches no other node. *)
Definition compute_schemas (n : t) (root_schema : Schema) : t :=
  let '(i, o) := op n root_schema in
  {| op := op n; parents := parents n; dependencies := dependencies n;
     input_columns := input_columns n; output_columns := output_columns n;
     input_schema := Some i; output_schema := Some o |}.

Definition zero (n : t) : t :=
  {| op := op n; parents := parents n; dependencies := dependencies n;
     input_columns := input_columns n; output_columns := output_columns n;
     input_schema := None; output_schema := None |}.
End Node.
Arguments Node.zero : simpl never.
Arguments Node.compute_schemas : simpl never.

Abbreviation heap := (gmap nat Node.t).

Definition node_pwd (h : heap) (n : nat) : list nat :=
  match h !! n with
  | Some nd => Node.parents_with_dependencies nd
  | None => []
  end.

(** ** Traversal *)

(** Modelled from the spec: [iter_nodes] (nvtabular/graph/node.py, missing) is
    a traversal that visits each node reachable from the given nodes, through
    data-parents and dependency-parents, exactly once.  [visit] is a
    depth-first search; [seen] is kept most recent first. *)
Fixpoint visit (fuel : nat) (h : heap) (seen : list nat) (n : nat) : list nat :=
  match fuel with
  | 0 => seen
  | S fuel' =>
      if decide (n ∈ seen) then seen
      else match h !! n with
           | None => seen
           | Some nd =>
               foldl (visit fuel' h) (n :: seen) (Node.parents_with_dependencies nd)
           end
  end.

Definition iter_nodes (h : heap) (nodes : list nat) : list nat :=
  reverse (foldl (visit (size h) h) [] nodes).

Definition edge (h : heap) (n m : nat) : Prop :=
  ∃ nd, h !! n = Some nd ∧ m ∈ Node.parents_with_dependencies nd.

Definition reachable (h : heap) (roots : list nat) (m : nat) : Prop :=
  is_Some (h !! m) ∧ ∃ r, r ∈ roots ∧ rtc (edge h) r m.


(** ** Iteration order of Python sets and dicts

    The order in which a [set] (or a dict built from one) is iterated is not
    fixed by the program.  An [Order] is any choice of such an order. *)
Record Order (A : Type) `{Countable A} := {
  order_of :> gset A → list A;
  order_perm : ∀ X, order_of X ≡ₚ elements X
}.
Arguments order_of {A _ _} _ _.
Arguments order_perm {A _ _} _ _.

Definition canonical_order (A : Type) `{Countable A} : Order A :=
  {| order_of := elements; order_perm := λ X, reflexivity (elements X) |}.

(** ** graph.py *)

Module Graph.
Record t := mk {
  output_node : nat;
  input_schema : option Schema;
  output_schema : option Schema
}.
End Graph.

(** [node.input_schema is None] *)
Definition schemaless (h : heap) (n : nat) : bool :=
  match h !! n with
  | Some nd => match Node.input_schema nd with None => true | Some _ => false end
  | None => false
  end.

Definition _get_schemaless_nodes (h : heap) (nodes : list nat) : gset nat :=
  list_to_set (filter (λ n, schemaless h n) (iter_nodes h nodes)).

(** A Python dict keeps a key where it was first inserted. *)
Definition dict_set {V : Type} (d : list (string * V)) (k : string) (v : V)
  : list (string * V) :=
  if decide (k ∈ d.*1)
  then (λ kv, if decide (kv.1 = k) then (k, v) else kv) <$> d
  else d ++ [(k, v)].

Definition _get_unique (cols : list string) : list string :=
  (foldl (λ d x, dict_set d x x) [] cols).*1.

(** [upstream_node.output_columns.names] *)
Definition output_column_names (h : heap) (n : nat) : list string :=
  match h !! n with
  | Some nd => Node.output_columns nd
  | None => []
  end.

Definition upstream_output_cols (h : heap) (node : Node.t) : list string :=
  _get_unique
    (foldl (λ acc u, acc ++ output_column_names h u) []
           (Node.parents_with_dependencies node)).

(** The columns one node adds to [input_cols] *)
Definition external_cols (names_order : Order string) (h : heap) (n : nat)
  : list string :=
  match h !! n with
  | Some node =>
      names_order (list_to_set (Node.input_columns node)
                     ∖ list_to_set (upstream_output_cols h node))
  | None => []
  end.

Definition _input_columns (names_order : Order string) (h : heap)
    (self : Graph.t) : list string :=
  _get_unique
    (foldl (λ input_cols n, input_cols ++ external_cols names_order h n) []
           (iter_nodes h [Graph.output_node self])).

Definition _zero_output_schemas (h : heap) (self : Graph.t) : heap :=
  foldl (λ h' n, alter Node.zero n h') h (iter_nodes h [Graph.output_node self]).

(** The heap together with the record of the calls of [compute_schemas]
    (node, schema passed), oldest first. *)
Record State := {
  nodes : heap;
  calls : list (nat * Schema)
}.

(** [if parent.output_schema]: a schema that is set and has some column.  The
    spec does not say whether an empty schema is truthy; merging an empty
    schema changes nothing (see [combined_schema_all]). *)
Definition truthy_output_schema (h : heap) (p : nat) : option Schema :=
  s ← h !! p ≫= Node.output_schema;
  if decide (s = ∅) then None else Some s.

(** The schema passed to [node.compute_schemas] (lines 51-61) *)
Definition combined_schema (h : heap) (root_schema : Schema) (node : Node.t)
  : Schema :=
  match Node.parents node with
  | [] => root_schema
  | _ :: _ =>
      let combined_schema :=
        foldl schema_merge ∅ (omap (truthy_output_schema h) (Node.parents node)) in
      schema_merge root_schema combined_schema
  end.

Definition compute_node_heap (root_schema : Schema) (h : heap) (n : nat) : heap :=
  match h !! n with
  | Some node =>
      <[n := Node.compute_schemas node (combined_schema h root_schema node)]> h
  | None => h
  end.

Definition compute_node (root_schema : Schema) (st : State) (n : nat) : State :=
  match nodes st !! n with
  | Some node =>
      {| nodes := compute_node_heap root_schema (nodes st) n;
         calls := calls st ++ [(n, combined_schema (nodes st) root_schema node)] |}
  | None => st
  end.

Inductive completion :=
  | Normal
  | RuntimeError (msg : string).

Definition no_phase_msg : string :=
  "failed to find dependency-free Operator to compute schema for".

(** [current_phase]: the pending nodes with no outstanding dependencies, in
    the order in which the dict happens to be iterated *)
Definition current_phase (nodes_order : Order nat)
    (schemaless_nodes : gmap nat (gset nat)) : list nat :=
  nodes_order (dom (filter (λ kv, kv.2 = ∅) schemaless_nodes)).

Definition remove_phase (phase : list nat)
    (schemaless_nodes : gmap nat (gset nat)) : gmap nat (gset nat) :=
  (λ dependencies, dependencies ∖ list_to_set phase)
    <$> foldl (λ m n, delete n m) schemaless_nodes phase.

(** The [while schemaless_nodes] loop; [None] when [fuel] iterations were not
    enough. *)
Fixpoint fit_loop (nodes_order : Order nat) (fuel : nat) (root_schema : Schema)
    (schemaless_nodes : gmap nat (gset nat)) (st : State)
  : option (completion * State) :=
  if decide (schemaless_nodes = ∅) then Some (Normal, st)
  else
    match fuel with
    | 0 => None
    | S fuel' =>
        match current_phase nodes_order schemaless_nodes with
        | [] => Some (RuntimeError no_phase_msg, st)
        | (_ :: _) as phase =>
            fit_loop nodes_order fuel' root_schema
              (remove_phase phase schemaless_nodes)
              (foldl (compute_node root_schema) st phase)
        end
    end.

Definition initial_schemaless_nodes (h : heap) (self : Graph.t)
  : gmap nat (gset nat) :=
  set_to_map (λ node, (node, _get_schemaless_nodes h (node_pwd h node)))
             (_get_schemaless_nodes h [Graph.output_node self]).

Inductive result (A : Type) :=
  | Return (a : A)
  | Raise (msg : string).
Arguments Return {A} _.
Arguments Raise {A} _.

(** Lines 72-79: the graph once the loop is over *)
Definition fitted_graph (names_order : Order string) (root_schema : Schema)
    (self : Graph.t) (h : heap) : Graph.t :=
  {| Graph.output_node := Graph.output_node self;
     Graph.input_schema :=
       Some (filter (λ kv, kv.1 ∈ _input_columns names_order h self) root_schema);
     Graph.output_schema := h !! Graph.output_node self ≫= Node.output_schema |}.

Definition fit_schema (nodes_order : Order nat) (names_order : Order string)
    (root_schema : Schema) (self : Graph.t) (st : State)
  : option (result Graph.t * State) :=
  let schemaless_nodes := initial_schemaless_nodes (nodes st) self in
  match fit_loop nodes_order (size schemaless_nodes) root_schema
                 schemaless_nodes st with
  | None => None
  | Some (RuntimeError msg, st') => Some (Raise msg, st')
  | Some (Normal, st') =>
      Some (Return (fitted_graph names_order root_schema self (nodes st')), st')
  end.

(** ** workflow.py *)

(** Modelled from the spec: a column selector (nvtabular/graph/selector.py,
    missing) is a set of column names. *)
Record ColumnSelector := { names : list string }.

Module Workflow.
(** Modelled from the spec: the fitted workflow (missing from the sources)
    gives access to its graph, to its output schema and to the dtype it
    produces for each output column. *)
Record t := mk {
  graph : Graph.t;
  output_schema : option Schema;
  output_dtypes : gmap string DType
}.

Definition set_output_dtype (w : t) (column : string) (d : DType) : t :=
  {| graph := graph w; output_schema := output_schema w;
     output_dtypes := <[column := d]> (output_dtypes w) |}.
End Workflow.

Module WorkflowOp.
Record t := mk {
  workflow : Workflow.t;
  sparse_max : gmap string nat;
  name : string;
  max_batch_size : option nat;
  label_columns : list string;
  cats : list string;
  conts : list string
}.

Definition export_name (self : t) : string := name self.
End WorkflowOp.

Inductive exn :=
  | ValueError (request_schema_columns workflow_input_schema_columns : list string)
  | AttributeError (attribute : string)
  | OSError.

(** [WorkflowOp.compute_output_schema]; the operator is handed back next to
    the outcome, as the state the call leaves behind. *)
Definition compute_output_schema (self : WorkflowOp.t) (input_schema : Schema)
    (col_selector : ColumnSelector) : (exn + option Schema) * WorkflowOp.t :=
  let expected_input := schema_project input_schema (names col_selector) in
  let workflow := WorkflowOp.workflow self in
  match Graph.input_schema (Workflow.graph workflow) with
  | Some graph_input_schema =>
      if decide (expected_input = graph_input_schema)
      then (inr (Workflow.output_schema workflow), self)
      else (inl (ValueError (column_names input_schema)
                            (column_names graph_input_schema)), self)
  | None => (inl (AttributeError "column_names"), self)
  end.

(** One entry of [consumer_config.input] *)
Record ModelInput (TritonDataType : Type) := {
  input_name : string;
  data_type : TritonDataType
}.
Arguments input_name {TritonDataType} _.
Arguments data_type {TritonDataType} _.

Record DtypeWarning := {
  warned_column : string;
  expected_dtype : DType;
  produced_dtype : DType
}.

Record Exported (Config FS : Type) := {
  outcome : exn + Config;
  file_system : FS;
  warnings : list DtypeWarning
}.
Arguments outcome {Config FS} _.
Arguments file_system {Config FS} _.
Arguments warnings {Config FS} _.

Section export.
(** What [export] uses from nvtabular.inference.triton.ensemble and from the
    file system is not part of the sources and is taken as given. *)
Context {TritonDataType Config FS : Type}.
Context (_triton_datatype_to_dtype : TritonDataType → DType).
Context (_remove_columns : Workflow.t → list string → Workflow.t).
Context (_generate_nvtabular_config :
           Workflow.t → string → list string → gmap string nat →
           option nat → list string → list string → Config).
Context (mkdir : list string → FS → option FS).
Context (save : Workflow.t → list string → FS → option FS).

(** The body of the loop over [consumer_config.input] (lines 70-78).  A
    dtype found in [output_dtypes] is a type tag and counts as true. *)
Definition reconcile_column (acc : Workflow.t * list DtypeWarning)
    (column : ModelInput TritonDataType) : Workflow.t * list DtypeWarning :=
  let tf_dtype := _triton_datatype_to_dtype (data_type column) in
  match Workflow.output_dtypes acc.1 !! input_name column with
  | Some nvt_dtype =>
      if decide (nvt_dtype ≠ tf_dtype)
      then (Workflow.set_output_dtype acc.1 (input_name column) tf_dtype,
            acc.2 ++ [{| warned_column := input_name column;
                         expected_dtype := tf_dtype;
                         produced_dtype := nvt_dtype |}])
      else acc
  | None => acc
  end.

Definition reconcile (workflow : Workflow.t)
    (consumer_config : option (list (ModelInput TritonDataType)))
  : Workflow.t * list DtypeWarning :=
  match consumer_config with
  | Some input => foldl reconcile_column (workflow, []) input
  | None => (workflow, [])
  end.

Definition export (self : WorkflowOp.t) (path : list string)
    (consumer_config : option (list (ModelInput TritonDataType)))
    (version : nat) (fs : FS) : Exported Config FS :=
  let new_dir_path := path ++ [WorkflowOp.export_name self] in
  match mkdir new_dir_path fs with
  | None => {| outcome := inl OSError; file_system := fs; warnings := [] |}
  | Some fs1 =>
      let workflow :=
        _remove_columns (WorkflowOp.workflow self) (WorkflowOp.label_columns self) in
      let '(workflow, warned) := reconcile workflow consumer_config in
      let export_path :=
        new_dir_path ++ [pretty version; WorkflowOp.export_name self] in
      match save workflow export_path fs1 with
      | None => {| outcome := inl OSError; file_system := fs1; warnings := warned |}
      | Some fs2 =>
          {| outcome :=
               inr (_generate_nvtabular_config workflow
                      (WorkflowOp.export_name self) new_dir_path
                      (WorkflowOp.sparse_max self)
                      (WorkflowOp.max_batch_size self)
                      (WorkflowOp.cats self) (WorkflowOp.conts self));
             file_system := fs2; warnings := warned |}
      end
  end.
End export.

(** ** Predicates used in the statements *)

(** Nodes of the heap not yet seen by the traversal *)
Definition unseen (h : heap) (seen : list nat) : nat :=
  size (dom h ∖ list_to_set seen).

(** What a traversal started from [roots] with [seen] already visited has
    achieved when it stops with [seen']. *)
Definition visit_post (h : heap) (seen roots seen' : list nat) : Prop :=
  (∃ new, seen' = new ++ seen) ∧
  (NoDup seen → NoDup seen') ∧
  (∀ x, x ∈ seen' → x ∈ seen ∨ reachable h roots x) ∧
  (∀ r, r ∈ roots → r ∈ seen' ∨ h !! r = None) ∧
  (∀ x y, x ∈ seen' → x ∉ seen → edge h x y → is_Some (h !! y) → y ∈ seen').

(** Two heaps hold the same graph: they differ at most in the schemas stored
    in the nodes. *)
Definition same_static (h h' : heap) : Prop :=
  ∀ n, Node.zero <$> h !! n = Node.zero <$> h' !! n.

(** [m] is a node reached from the parents and dependencies of [n] *)
Definition ancestors (h : heap) (n m : nat) : Prop :=
  reachable h (node_pwd h n) m.

(** The pending nodes whose blocking set is empty *)
Definition phase_set (schemaless_nodes : gmap nat (gset nat)) : gset nat :=
  dom (filter (λ kv, kv.2 = ∅) schemaless_nodes).

(** The heap after a phase, told without a processing order: every node of
    the phase computes its schemas from the heap as it was before the phase. *)
Definition phase_heap (root_schema : Schema) (h : heap) (X : gset nat) : heap :=
  map_imap (λ n node,
              Some (if decide (n ∈ X)
                    then Node.compute_schemas node (combined_schema h root_schema node)
                    else node)) h.

Definition phase_calls (root_schema : Schema) (h : heap) (l : list nat)
  : list (nat * Schema) :=
  omap (λ n, (λ node, (n, combined_schema h root_schema node)) <$> h !! n) l.

(** Nodes of [l] have no data-parent in [l] *)
Definition independent (h : heap) (l : list nat) : Prop :=
  ∀ n nd p, n ∈ l → h !! n = Some nd → p ∈ Node.parents nd → p ∉ l.

(** What the [while] loop maintains, for a fit started on heap [h0] with output
    node [out]: the graph is untouched, the pending nodes are reachable, and
    a pending node is blocked by exactly its pending ancestors. *)
Record loop_inv (h0 : heap) (out : nat) (schemaless_nodes : gmap nat (gset nat))
    (h : heap) : Prop := {
  inv_static : same_static h h0;
  inv_pending : ∀ n, n ∈ dom schemaless_nodes → reachable h0 [out] n;
  inv_blocking : ∀ n deps, schemaless_nodes !! n = Some deps →
                 ∀ m, m ∈ deps ↔ m ∈ dom schemaless_nodes ∧ ancestors h0 n m
}.

(** No node reachable from [out] is among its own ancestors *)
Definition acyclic (h : heap) (out : nat) : Prop :=
  ∀ n, reachable h [out] n → ¬ ancestors h n n.

(** The schemas held by [nd] are those its operator computes from [arg] *)
Definition computed_with (nd : Node.t) (arg : Schema) : Prop :=
  Node.input_schema nd = Some (Node.op nd arg).1 ∧
  Node.output_schema nd = Some (Node.op nd arg).2.

(** The keys of the dict built by [_get_unique], starting from keys [ks] *)
Definition add_keys (ks cols : list string) : list string :=
  foldl (λ ks x, if decide (x ∈ ks) then ks else ks ++ [x]) ks cols.

(** The descriptor of column [c] in the last of the parents [ps] whose output
    schema has a column [c] *)
Fixpoint latest_producer (h : heap) (ps : list nat) (c : string)
  : option ColumnSchema :=
  match ps with
  | [] => None
  | p :: ps' =>
      match latest_producer h ps' c with
      | Some d => Some d
      | None => (h !! p ≫= Node.output_schema) ≫= (λ s : Schema, s !! c)
      end
  end.

(** Column [c] is consumed by a reachable node and produced by none of that
    node's parents and dependencies. *)
Definition external_input (h : heap) (out : nat) (c : string) : Prop :=
  ∃ n nd, reachable h [out] n ∧ h !! n = Some nd ∧
          c ∈ Node.input_columns nd ∧
          ∀ p, p ∈ Node.parents_with_dependencies nd → c ∉ output_column_names h p.

(** One iteration of the [while] loop that finds a phase to process *)
Definition loop_step (nodes_order : Order nat) (root_schema : Schema)
    (s s' : gmap nat (gset nat) * State) : Prop :=
  s.1 ≠ ∅ ∧ current_phase nodes_order s.1 ≠ [] ∧
  s' = (remove_phase (current_phase nodes_order s.1) s.1,
        foldl (compute_node root_schema) s.2 (current_phase nodes_order s.1)).

(** [(node.input_schema, node.output_schema)] *)
Definition node_schemas (h : heap) (n : nat)
  : option (option Schema * option Schema) :=
  (λ nd, (Node.input_schema nd, Node.output_schema nd)) <$> h !! n.

(** Every node reachable from [out] has both schemas unset. *)
Definition unfitted (h : heap) (out : nat) : Prop :=
  ∀ n nd, reachable h [out] n → h !! n = Some nd →
          Node.input_schema nd = None ∧ Node.output_schema nd = None.

(** [fit_schema], then [_zero_output_schemas], then [fit_schema] again on the
    same graph object: both fits return, and the second leaves every node
    reachable from the output node, and the graph, with the schemas of the
    first. *)
Definition refit_agrees (o1 o2 : Order nat) (no1 no2 : Order string)
    (root_schema : Schema) (g : Graph.t) (st : State) : Prop :=
  ∃ g1 st1 g2 st2,
    fit_schema o1 no1 root_schema g st = Some (Return g1, st1) ∧
    fit_schema o2 no2 root_schema g1
      {| nodes := _zero_output_schemas (nodes st1) g1; calls := calls st1 |}
    = Some (Return g2, st2) ∧
    (∀ n, reachable (nodes st) [Graph.output_node g] n →
          node_schemas (nodes st2) n = node_schemas (nodes st1) n) ∧
    Graph.input_schema g2 = Graph.input_schema g1 ∧
    Graph.output_schema g2 = Graph.output_schema g1.

(** ** Concrete graphs *)

Module Scenario.
Definition col (d : DType) : ColumnSchema :=
  {| dtype := d; tags := ∅; properties := ∅ |}.

Definition root : Schema :=
  <["A" := col int32]> (<["B" := col int32]> (<["C" := col object_]> ∅)).

(** A chain N1 -> N2: N1 doubles A, N2 adds B. *)
Definition double_op (s : Schema) : Schema * Schema :=
  (schema_project s ["A"],
   <["doubled" := col int32]> (schema_project s ["A"])).

Definition total_op (s : Schema) : Schema * Schema :=
  (schema_project s ["doubled"; "B"],
   <["total" := col int32]> (schema_project s ["doubled"; "B"])).

Definition N1 : Node.t :=
  Node.mk double_op [] [] ["A"] ["A"; "doubled"] None None.

Definition N2 : Node.t :=
  Node.mk total_op [1] [] ["doubled"; "B"] ["doubled"; "B"; "total"] None None.

Definition chain : heap := <[1 := N1]> (<[2 := N2]> ∅).

Definition chain_graph : Graph.t := Graph.mk 2 None None.

Definition chain_state : State := {| nodes := chain; calls := [] |}.

(** Two nodes that are each other's parent *)
Definition cycle : heap :=
  <[1 := Node.mk double_op [2] [] ["A"] ["A"; "doubled"] None None]>
    (<[2 := N2]> ∅).

Definition cycle_state : State := {| nodes := cycle; calls := [] |}.

(** One node that already holds schemas, left by an earlier fit *)
Definition identity_op (s : Schema) : Schema * Schema := (s, s).

Definition stale : Schema := <["x" := col int64]> ∅.

Definition fitted_node : Node.t :=
  Node.mk identity_op [] [] ["x"] ["x"] (Some stale) (Some stale).

Definition prefitted : heap := <[0 := fitted_node]> ∅.

Definition prefitted_graph : Graph.t := Graph.mk 0 (Some stale) (Some stale).

Definition prefitted_state : State := {| nodes := prefitted; calls := [] |}.

(** The outcome of a fit that is known to return *)
Definition returned (r : option (result Graph.t * State)) (g : Graph.t)
    (st : State) : Graph.t * State :=
  match r with
  | Some (Return g', st') => (g', st')
  | _ => (g, st)
  end.

(** Fit, zero and fit again on the graph that already holds schemas *)
Definition first_fit : Graph.t * State :=
returned (fit_schema (canonical_order nat) (canonical_order string)
root prefitted_graph prefitted_state)
prefitted_graph prefitted_state.

Definition second_fit : Graph.t * State :=
returned (fit_schema (canonical_order nat) (canonical_order string)
root first_fit.1
{| nodes := _zero_output_schemas (nodes first_fit.2) first_fit.1;
calls := calls first_fit.2 |})
prefitted_graph prefitted_state.

(** The descriptor of column [c] in the output schema of node [n] *)
Definition output_column (h : heap) (n : nat) (c : string) : option ColumnSchema :=
(h !! n ≫= Node.output_schema) ≫= (λ s : Schema, s !! c).

(** The fit of the chain *)
Definition chain_fit : Graph.t * State :=
returned (fit_schema (canonical_order nat) (canonical_order string)
root chain_graph chain_state)
chain_graph chain_state.

(** Two data-parents that both produce [x], with different dtypes *)
Definition int_x_op (s : Schema) : Schema * Schema := (s, <["x" := col int32]> ∅).

Definition float_x_op (s : Schema) : Schema * Schema := (s, <["x" := col float32]> ∅).

Definition two_parents : heap :=
<[1 := Node.mk int_x_op [] [] [] ["x"] None None]>
(<[2 := Node.mk float_x_op [] [] [] ["x"] None None]>
(<[3 := Node.mk identity_op [1; 2] [] ["x"] ["x"] None None]> ∅)).

Definition two_parents_fit : Graph.t * State :=
returned (fit_schema (canonical_order nat) (canonical_order string)
root (Graph.mk 3 None None) {| nodes := two_parents; calls := [] |})
chain_graph chain_state.

(** A workflow operator around the fitted chain *)
Definition chain_workflow : Workflow.t :=
Workflow.mk chain_fit.1 (Graph.output_schema chain_fit.1)
(<["doubled" := int32]> (<["B" := int32]> (<["total" := int32]> ∅))).

Definition chain_op : WorkflowOp.t :=
WorkflowOp.mk chain_workflow ∅ "workflowop" None [] [] [].

(** Export: the workflow produces [age] as int32, the consumer expects
float32 for [age] and declares a column [zip] that the workflow does not
produce. *)
Inductive TritonType := TYPE_INT32 | TYPE_INT64 | TYPE_FP32 | TYPE_FP64.

Definition triton_dtype (t : TritonType) : DType :=
match t with
| TYPE_INT32 => int32
| TYPE_INT64 => int64
| TYPE_FP32 => float32
| TYPE_FP64 => float64
end.

Definition age_workflow : Workflow.t :=
Workflow.mk (Graph.mk 0 None None) None (<["age" := int32]> ∅).

Definition age_op : WorkflowOp.t :=
WorkflowOp.mk age_workflow ∅ "workflowop" None [] [] [].

Definition consumer_input : list (ModelInput TritonType) :=
[ {| input_name := "age"; data_type := TYPE_FP32 |};
{| input_name := "zip"; data_type := TYPE_INT64 |} ].

(** A file system is the list of the paths created so far. *)
Definition make_dir (path : list string) (fs : list (list string))
: option (list (list string)) :=
if decide (path ∈ fs) then None else Some (path :: fs).

Definition save_workflow (w : Workflow.t) (path : list string)
(fs : list (list string)) : option (list (list string)) :=
Some (path :: fs).

Definition keep_columns (w : Workflow.t) (to_remove : list string) : Workflow.t := w.

Definition config_dtypes (w : Workflow.t) (name : string) (path : list string)
(sparse_max : gmap string nat) (max_batch_size : option nat)
(cats conts : list string) : gmap string DType :=
Workflow.output_dtypes w.

Definition age_export : Exported (gmap string DType) (list (list string)) :=
export triton_dtype keep_columns config_dtypes make_dir save_workflow
age_op ["models"] (Some consumer_input) 1 [].
End Scenario.

(** ** The rest of graph.py *)

(** [_get_ops_by_type]: the nodes reached from [nodes] whose operator is an
    instance of [op_type].  The classes of the operators are not part of the
    sources; [isinstance] is taken as given. *)
Definition has_op_type {OpType : Type}
    (isinstance : (Schema → Schema * Schema) → OpType → bool)
    (h : heap) (op_type : OpType) (n : nat) : bool :=
  match h !! n with
  | Some node => isinstance (Node.op node) op_type
  | None => false
  end.

Definition _get_ops_by_type {OpType : Type}
    (isinstance : (Schema → Schema * Schema) → OpType → bool)
    (h : heap) (nodes : list nat) (op_type : OpType) : gset nat :=
  list_to_set
    (filter (λ n, has_op_type isinstance h op_type n) (iter_nodes h nodes)).

(** A reachable node without schema that is among its own ancestors *)
Definition self_blocked (h : heap) (out : nat) (c : nat) : Prop :=
  reachable h [out] c ∧ schemaless h c = true ∧ ancestors h c c.

(** The outcome and the state of the fit of the two-node cycle *)
Definition cycle_fit : result Graph.t * State :=
  default (Raise "", Scenario.cycle_state)
    (fit_schema (canonical_order nat) (canonical_order string)
       Scenario.root Scenario.chain_graph Scenario.cycle_state).

(** A consumer configuration that lists [age] twice, with two dtypes *)
Definition duplicate_input : list (ModelInput Scenario.TritonType) :=
  [ {| input_name := "age"; data_type := Scenario.TYPE_FP32 |};
    {| input_name := "age"; data_type := Scenario.TYPE_INT32 |} ].

(** * Properties *)

(** ** The traversal visits exactly the reachable nodes, once each *)

Lemma reachable_mono h roots roots' m :
  roots ⊆ roots' → reachable h roots m → reachable h roots' m.
Proof. intros Hsub (Hm & r & Hr & Hrtc). split; [done|]. exists r; split; [set_solver | done]. Qed.

Lemma visit_post_nil h seen : visit_post h seen [] seen.
Proof.
  repeat split.
  - by exists [].
  - done.
  - by left.
  - intros r Hr. by apply elem_of_nil in Hr.
  - intros x y Hx Hx'. done.
Qed.

Lemma visit_post_app h s r1 s1 r2 s2 :
  visit_post h s r1 s1 → visit_post h s1 r2 s2 → visit_post h s (r1 ++ r2) s2.
Proof.
  intros ([n1 ->] & Hnd1 & Hsound1 & Hroots1 & Hclosed1)
         ([n2 ->] & Hnd2 & Hsound2 & Hroots2 & Hclosed2).
  repeat split.
  - exists (n2 ++ n1). by rewrite <-app_assoc.
  - auto.
  - intros x Hx. destruct (Hsound2 x Hx) as [Hx1 | Hx2].
    + destruct (Hsound1 x Hx1) as [? | Hreach]; [by left | right].
      eapply reachable_mono; [| done]. set_solver.
    + right. eapply reachable_mono; [| done]. set_solver.
  - intros r [Hr | Hr]%elem_of_app.
    + destruct (Hroots1 r Hr) as [? | ?]; [left | by right]. set_solver.
    + by apply Hroots2.
  - intros x y Hx Hnx Hedge Hy.
    destruct (decide (x ∈ n1 ++ s)) as [Hin | Hnin].
    + apply elem_of_app. right. by eapply Hclosed1.
    + by eapply Hclosed2.
Qed.

Lemma unseen_mono h s new : unseen h (new ++ s) ≤ unseen h s.
Proof. unfold unseen. apply subseteq_size. set_solver. Qed.

Lemma unseen_cons h s n :
  n ∉ s → is_Some (h !! n) → S (unseen h (n :: s)) ≤ unseen h s.
Proof.
  intros Hn Hsome. unfold unseen.
  assert (dom h ∖ list_to_set s = {[n]} ∪ dom h ∖ list_to_set (n :: s)) as ->.
  { apply set_eq. intros x. rewrite elem_of_union, !elem_of_difference,
      elem_of_singleton, !elem_of_list_to_set, elem_of_cons, elem_of_dom.
    destruct (decide (x = n)) as [-> | ?]; naive_solver. }
  rewrite (size_union {[n]} (dom h ∖ list_to_set (n :: s))) by set_solver.
  rewrite size_singleton. lia.
Qed.

Lemma unseen_zero h s n : unseen h s = 0 → n ∈ s ∨ h !! n = None.
Proof.
  unfold unseen. intros Hz%size_empty_inv.
  destruct (h !! n) eqn:Hn; [left | by right].
  destruct (decide (n ∈ s)) as [| Hnin]; [done | exfalso].
  assert (n ∈ dom h ∖ list_to_set (C:=gset nat) s) as Hin.
  { rewrite elem_of_difference, elem_of_list_to_set, elem_of_dom. eauto. }
  set_solver.
Qed.

Lemma foldl_visit_post h (v : list nat → nat → list nat) k :
  (∀ seen n, unseen h seen ≤ k → visit_post h seen [n] (v seen n)) →
  ∀ roots seen, unseen h seen ≤ k → visit_post h seen roots (foldl v seen roots).
Proof.
  intros Hv roots. induction roots as [| r roots IH]; intros seen Hk; simpl.
  - apply visit_post_nil.
  - change (r :: roots) with ([r] ++ roots).
    pose proof (Hv seen r Hk) as Hpost.
    eapply visit_post_app; [exact Hpost |].
    apply IH. destruct Hpost as ([new ->] & _).
    pose proof (unseen_mono h seen new). lia.
Qed.

Lemma visit_post_skip h seen n :
  n ∈ seen ∨ h !! n = None → visit_post h seen [n] seen.
Proof.
  intros Hn. repeat split.
  - by exists [].
  - done.
  - by left.
  - by intros r ->%list_elem_of_singleton.
  - intros x y Hx Hx'. done.
Qed.

Lemma visit_visit_post h fuel :
  ∀ seen n, unseen h seen ≤ fuel → visit_post h seen [n] (visit fuel h seen n).
Proof.
  induction fuel as [| fuel IH]; intros seen n Hfuel.
  - simpl. apply visit_post_skip, unseen_zero. lia.
  - simpl.
    destruct (decide (n ∈ seen)) as [Hin | Hnin].
    { apply visit_post_skip. by left. }
    destruct (h !! n) as [nd |] eqn:Hn.
    2:{ apply visit_post_skip. by right. }
    assert (unseen h (n :: seen) ≤ fuel) as Hfuel'.
    { pose proof (unseen_cons h seen n Hnin (mk_is_Some _ _ Hn)). lia. }
    destruct (foldl_visit_post h (visit fuel h) fuel IH
                (Node.parents_with_dependencies nd) (n :: seen) Hfuel')
      as ([new Hnew] & Hnd & Hsound & Hroots & Hclosed).
    repeat split.
    + exists (new ++ [n]). rewrite Hnew. by rewrite <-app_assoc.
    + intros Hs. apply Hnd. by constructor.
    + intros x Hx. destruct (Hsound x Hx) as [[-> | Hx']%elem_of_cons | Hreach].
      * right. split; [eauto |]. exists n. split; [set_solver | done].
      * by left.
      * right. destruct Hreach as (Hsome & r & Hr & Hrtc). split; [done |].
        exists n. split; [set_solver |].
        eapply rtc_l; [| done]. exists nd. done.
    + intros r ->%list_elem_of_singleton. left. rewrite Hnew. set_solver.
    + intros x y Hx Hnx Hedge Hy.
      destruct (decide (x = n)) as [-> | Hne].
      * destruct Hedge as (nd' & Hnd' & Hy'). simplify_eq.
        destruct (Hroots y Hy') as [? | Hnone]; [done |].
        rewrite Hnone in Hy. by destruct Hy.
      * eapply Hclosed; [done | | done | done]. set_solver.
Qed.

Lemma iter_nodes_post h roots :
  visit_post h [] roots (foldl (visit (size h) h) [] roots).
Proof.
  apply (foldl_visit_post h (visit (size h) h) (size h)).
  - apply visit_visit_post.
  - unfold unseen. rewrite <-size_dom. apply subseteq_size. set_solver.
Qed.

Lemma iter_nodes_NoDup h roots : NoDup (iter_nodes h roots).
Proof.
  unfold iter_nodes. rewrite reverse_Permutation.
  destruct (iter_nodes_post h roots) as (_ & Hnd & _). apply Hnd. constructor.
Qed.

Lemma elem_of_iter_nodes h roots m :
  m ∈ iter_nodes h roots ↔ reachable h roots m.
Proof.
  unfold iter_nodes. rewrite elem_of_reverse.
  destruct (iter_nodes_post h roots) as (_ & _ & Hsound & Hroots & Hclosed).
  split.
  - intros Hm. destruct (Hsound m Hm) as [Hnil | ?]; [| done].
    by apply elem_of_nil in Hnil.
  - intros (Hsome & r & Hr & Hrtc). revert m Hrtc Hsome.
    apply (rtc_ind_r (λ m, is_Some (h !! m) → m ∈ foldl (visit (size h) h) [] roots)).
    + intros Hsome. destruct (Hroots r Hr) as [? | Hnone]; [done |].
      rewrite Hnone in Hsome. by destruct Hsome.
    + intros y z Hrtc Hedge IH Hsome.
      eapply (Hclosed y z); [| | done | done].
      * apply IH. destruct Hedge as (nd & -> & _). eauto.
      * apply not_elem_of_nil.
Qed.

(** ** Heaps that hold the same graph *)

Lemma same_static_refl h : same_static h h.
Proof. done. Qed.

Lemma same_static_sym h h' : same_static h h' → same_static h' h.
Proof. intros H n. by rewrite H. Qed.

Lemma same_static_trans h1 h2 h3 :
  same_static h1 h2 → same_static h2 h3 → same_static h1 h3.
Proof. intros H1 H2 n. by rewrite H1, H2. Qed.

Lemma same_static_lookup h h' n nd :
  same_static h h' → h !! n = Some nd →
  ∃ nd', h' !! n = Some nd' ∧ Node.zero nd' = Node.zero nd.
Proof.
  intros Hs Hn. specialize (Hs n). rewrite Hn in Hs.
  destruct (h' !! n) as [nd' |]; [| done].
  simpl in Hs. apply (inj Some) in Hs. eauto.
Qed.

Lemma same_static_is_Some h h' n :
  same_static h h' → is_Some (h !! n) ↔ is_Some (h' !! n).
Proof.
  intros Hs. specialize (Hs n).
  destruct (h !! n), (h' !! n); simplify_eq/=; split; intros [? ?]; eauto; done.
Qed.

Lemma same_static_dom h h' : same_static h h' → dom h = dom h'.
Proof.
  intros Hs. apply set_eq. intros n. rewrite !elem_of_dom.
  by apply same_static_is_Some.
Qed.

Lemma zero_parents nd nd' :
  Node.zero nd = Node.zero nd' → Node.parents nd = Node.parents nd'.
Proof. intros H. unfold Node.zero in H. by injection H. Qed.

Lemma zero_pwd nd nd' :
  Node.zero nd = Node.zero nd' →
  Node.parents_with_dependencies nd = Node.parents_with_dependencies nd'.
Proof.
  intros H. unfold Node.parents_with_dependencies.
  unfold Node.zero in H. injection H. by intros _ _ -> -> _.
Qed.

Lemma same_static_pwd h h' n : same_static h h' → node_pwd h n = node_pwd h' n.
Proof.
  intros Hs. unfold node_pwd. specialize (Hs n).
  destruct (h !! n), (h' !! n); try done.
  simpl in Hs. apply (inj Some) in Hs. by apply zero_pwd.
Qed.

Lemma same_static_edge h h' n m : same_static h h' → edge h n m → edge h' n m.
Proof.
  intros Hs (nd & Hn & Hm).
  destruct (same_static_lookup h h' n nd Hs Hn) as (nd' & Hn' & Hz).
  exists nd'. split; [done |]. by rewrite (zero_pwd nd' nd).
Qed.

Lemma same_static_reachable h h' roots m :
  same_static h h' → reachable h roots m → reachable h' roots m.
Proof.
  intros Hs (Hm & r & Hr & Hrtc). split.
  - by apply (same_static_is_Some h h').
  - exists r. split; [done |].
    eapply rtc_subrel; [| done]. intros x y. by apply same_static_edge.
Qed.

Lemma same_static_visit h h' :
  same_static h h' → ∀ fuel seen n, visit fuel h seen n = visit fuel h' seen n.
Proof.
  intros Hs fuel. induction fuel as [| fuel IH]; intros seen n; simpl; [done |].
  destruct (decide (n ∈ seen)); [done |].
  pose proof (Hs n) as Hn.
  destruct (h !! n) as [nd |], (h' !! n) as [nd' |]; try done.
  simpl in Hn. apply (inj Some) in Hn.
  rewrite (zero_pwd nd nd') by done.
  generalize (n :: seen).
  induction (Node.parents_with_dependencies nd') as [| p ps IHps]; intros acc; simpl; [done |].
  by rewrite IH, IHps.
Qed.

Lemma same_static_iter_nodes h h' roots :
  same_static h h' → iter_nodes h roots = iter_nodes h' roots.
Proof.
  intros Hs. unfold iter_nodes. f_equal.
  rewrite <-!size_dom, (same_static_dom h h' Hs).
  generalize (@nil nat).
  induction roots as [| r roots IH]; intros acc; simpl; [done |].
  by rewrite (same_static_visit h h' Hs), IH.
Qed.

(** ** One node, one phase *)

Lemma zero_compute_schemas nd s : Node.zero (Node.compute_schemas nd s) = Node.zero nd.
Proof. unfold Node.compute_schemas, Node.zero. by destruct (Node.op nd s). Qed.

Lemma parents_compute_schemas nd s :
  Node.parents (Node.compute_schemas nd s) = Node.parents nd.
Proof. unfold Node.compute_schemas. by destruct (Node.op nd s). Qed.

Lemma op_compute_schemas nd s :
  Node.op (Node.compute_schemas nd s) = Node.op nd.
Proof. unfold Node.compute_schemas. by destruct (Node.op nd s). Qed.

Lemma input_schema_compute_schemas nd s :
  Node.input_schema (Node.compute_schemas nd s) = Some (Node.op nd s).1.
Proof. unfold Node.compute_schemas. by destruct (Node.op nd s). Qed.

Lemma output_schema_compute_schemas nd s :
  Node.output_schema (Node.compute_schemas nd s) = Some (Node.op nd s).2.
Proof. unfold Node.compute_schemas. by destruct (Node.op nd s). Qed.

Lemma combined_schema_ext h h' root nd nd' :
  Node.parents nd = Node.parents nd' →
  (∀ p, p ∈ Node.parents nd →
        h !! p ≫= Node.output_schema = h' !! p ≫= Node.output_schema) →
  combined_schema h root nd = combined_schema h' root nd'.
Proof.
  intros Hp Hout. unfold combined_schema. rewrite <-Hp.
  destruct (Node.parents nd) as [| p ps] eqn:Hps; [done |].
  revert Hout. generalize (p :: ps). intros l Hout.
  assert (omap (truthy_output_schema h) l = omap (truthy_output_schema h') l) as ->; [| done].
  induction l as [| q l IH]; [done |].
  assert (truthy_output_schema h q = truthy_output_schema h' q) as Hq.
  { unfold truthy_output_schema. rewrite (Hout q) by set_solver. done. }
  assert (omap (truthy_output_schema h) l = omap (truthy_output_schema h') l) as Hl.
  { apply IH. intros r Hr. apply Hout. set_solver. }
  csimpl. rewrite Hq. destruct (truthy_output_schema h' q); by rewrite Hl.
Qed.

Lemma lookup_compute_node_heap root h n m :
  compute_node_heap root h n !! m =
  if decide (n = m)
  then (λ nd, Node.compute_schemas nd (combined_schema h root nd)) <$> h !! n
  else h !! m.
Proof.
  unfold compute_node_heap. destruct (h !! n) as [nd |] eqn:Hn.
  - rewrite lookup_insert. by destruct (decide (n = m)).
  - destruct (decide (n = m)) as [<- |]; [| done]. by rewrite Hn.
Qed.

Lemma nodes_compute_node root st n :
  nodes (compute_node root st n) = compute_node_heap root (nodes st) n.
Proof.
  unfold compute_node, compute_node_heap. by destruct (nodes st !! n).
Qed.

Lemma calls_compute_node root st n :
  calls (compute_node root st n) = calls st ++ phase_calls root (nodes st) [n].
Proof.
  unfold compute_node, phase_calls. simpl.
  destruct (nodes st !! n); simpl; [done |]. by rewrite app_nil_r.
Qed.

Lemma lookup_phase_heap root h X n :
  phase_heap root h X !! n =
  (λ nd, if decide (n ∈ X)
         then Node.compute_schemas nd (combined_schema h root nd) else nd)
    <$> h !! n.
Proof. unfold phase_heap. rewrite map_lookup_imap. by destruct (h !! n). Qed.

Lemma same_static_phase_heap root h X : same_static (phase_heap root h X) h.
Proof.
  intros n. rewrite lookup_phase_heap. destruct (h !! n) as [nd |]; [| done].
  simpl. destruct (decide (n ∈ X)); [| done]. by rewrite zero_compute_schemas.
Qed.

Lemma phase_heap_unchanged root h X n : n ∉ X → phase_heap root h X !! n = h !! n.
Proof.
  intros Hn. rewrite lookup_phase_heap. destruct (h !! n); [| done].
  simpl. by rewrite decide_False.
Qed.

Lemma phase_calls_cons root h n l :
  phase_calls root h (n :: l) = phase_calls root h [n] ++ phase_calls root h l.
Proof. unfold phase_calls. csimpl. by destruct (h !! n). Qed.

Lemma phase_calls_ext root h h' l :
  (∀ n, n ∈ l → h !! n = h' !! n) →
  (∀ n nd p, n ∈ l → h !! n = Some nd → p ∈ Node.parents nd → h !! p = h' !! p) →
  phase_calls root h l = phase_calls root h' l.
Proof.
  intros Hsame Hpar.
  induction l as [| n l IH]; [done |].
  rewrite (phase_calls_cons root h), (phase_calls_cons root h'). f_equal.
  - unfold phase_calls. csimpl. rewrite <-(Hsame n) by set_solver.
    destruct (h !! n) as [nd |] eqn:Hn; [| done]. csimpl.
    rewrite (combined_schema_ext h h' root nd nd); [done | done |].
    intros p Hp. by rewrite (Hpar n nd p) by set_solver.
  - apply IH.
    + intros m Hm. apply Hsame. set_solver.
    + intros m nd p Hm. apply Hpar. set_solver.
Qed.

Lemma foldl_compute_node_heap root l :
  NoDup l → ∀ h, independent h l →
  foldl (compute_node_heap root) h l = phase_heap root h (list_to_set l).
Proof.
  induction 1 as [| x l Hx Hnd IH]; intros h Hind; simpl.
  - apply map_eq. intros n. rewrite phase_heap_unchanged; [done | set_solver].
  - assert (∀ n, n ≠ x → compute_node_heap root h x !! n = h !! n) as Hother.
    { intros n Hn. rewrite lookup_compute_node_heap. by rewrite decide_False. }
    rewrite IH.
    2:{ intros n nd p Hn Hlook Hp.
        rewrite Hother in Hlook by set_solver.
        pose proof (Hind n nd p). set_solver. }
    apply map_eq. intros n. rewrite !lookup_phase_heap.
    destruct (decide (n = x)) as [-> | Hne].
    + rewrite lookup_compute_node_heap, decide_True by done.
      destruct (h !! x) as [nd |]; [| done]. simpl.
      rewrite decide_False by set_solver. rewrite decide_True by set_solver. done.
    + rewrite Hother by done. destruct (h !! n) as [nd |] eqn:Hn; [| done]. simpl.
      destruct (decide (n ∈ l)) as [Hin | Hnin].
      * rewrite decide_True by set_solver. rewrite decide_True by set_solver.
        rewrite (combined_schema_ext (compute_node_heap root h x) h root nd nd);
          [done | done |].
        intros p Hp. rewrite Hother; [done |].
        pose proof (Hind n nd p). set_solver.
      * rewrite decide_False by set_solver. rewrite decide_False by set_solver. done.
Qed.

Lemma foldl_compute_node root l :
  NoDup l → ∀ st, independent (nodes st) l →
  nodes (foldl (compute_node root) st l) = phase_heap root (nodes st) (list_to_set l) ∧
  calls (foldl (compute_node root) st l) = calls st ++ phase_calls root (nodes st) l.
Proof.
  intros Hnd st Hind. split.
  - rewrite <-foldl_compute_node_heap by done.
    clear Hnd Hind. revert st. induction l as [| x l IH]; intros st; simpl; [done |].
    by rewrite IH, nodes_compute_node.
  - revert st Hind. induction Hnd as [| x l Hx Hnd IH]; intros st Hind.
    + simpl. by rewrite app_nil_r.
    + rewrite (phase_calls_cons root (nodes st) x l). simpl.
      assert (∀ n, n ≠ x → nodes (compute_node root st x) !! n = nodes st !! n) as Hother.
      { intros n Hn. rewrite nodes_compute_node, lookup_compute_node_heap.
        by rewrite decide_False. }
      rewrite IH.
      2:{ intros n nd p Hn Hlook Hp.
          rewrite Hother in Hlook by set_solver.
          pose proof (Hind n nd p). set_solver. }
      rewrite calls_compute_node, <-app_assoc. f_equal.
      f_equal. apply phase_calls_ext.
      * intros n Hn. apply Hother. set_solver.
      * intros n nd p Hn Hlook Hp. apply Hother.
        rewrite Hother in Hlook by set_solver.
        pose proof (Hind n nd p). set_solver.
Qed.

(** ** The bookkeeping of the loop *)

Lemma reachable_is_Some h roots m : reachable h roots m → is_Some (h !! m).
Proof. by intros [? _]. Qed.

Lemma elem_of_node_pwd h n m : m ∈ node_pwd h n ↔ edge h n m.
Proof.
  unfold node_pwd, edge. destruct (h !! n) as [nd |].
  - split; [eauto |]. by intros (? & [= <-] & ?).
  - split; [by intros ?%elem_of_nil | by intros (? & ? & ?)].
Qed.

Lemma ancestors_parent h n m :
  is_Some (h !! m) → m ∈ node_pwd h n → ancestors h n m.
Proof. intros Hm Hin. split; [done |]. by exists m. Qed.

Lemma reachable_ancestors h roots n m :
  reachable h roots n → ancestors h n m → reachable h roots m.
Proof.
  intros (_ & r & Hr & Hrn) (Hm & p & Hp & Hpm). split; [done |].
  exists r. split; [done |]. etrans; [exact Hrn |].
  eapply rtc_l; [| done]. by apply elem_of_node_pwd.
Qed.

Lemma ancestors_trans h n m k : ancestors h n m → ancestors h m k → ancestors h n k.
Proof. apply reachable_ancestors. Qed.

Lemma elem_of_get_schemaless_nodes h l m :
  m ∈ _get_schemaless_nodes h l ↔ reachable h l m ∧ schemaless h m = true.
Proof.
  unfold _get_schemaless_nodes.
  rewrite elem_of_list_to_set, list_elem_of_filter, elem_of_iter_nodes.
  rewrite Is_true_true. tauto.
Qed.

Lemma lookup_initial_schemaless_nodes h g n deps :
  initial_schemaless_nodes h g !! n = Some deps ↔
  n ∈ _get_schemaless_nodes h [Graph.output_node g] ∧
  deps = _get_schemaless_nodes h (node_pwd h n).
Proof.
  unfold initial_schemaless_nodes. rewrite lookup_set_to_map.
  - split.
    + by intros (y & Hy & [= -> <-]).
    + intros [Hn ->]. by exists n.
  - by intros y y' _ _ [=].
Qed.

Lemma loop_inv_init h g :
  loop_inv h (Graph.output_node g) (initial_schemaless_nodes h g) h.
Proof.
  assert (∀ n, n ∈ dom (initial_schemaless_nodes h g) ↔
               n ∈ _get_schemaless_nodes h [Graph.output_node g]) as Hdom.
  { intros n. rewrite elem_of_dom. unfold is_Some.
    setoid_rewrite lookup_initial_schemaless_nodes. naive_solver. }
  split.
  - done.
  - intros n Hn%Hdom. by apply elem_of_get_schemaless_nodes in Hn as [? _].
  - intros n deps [Hn ->]%lookup_initial_schemaless_nodes m.
    apply elem_of_get_schemaless_nodes in Hn as [Hn _].
    rewrite Hdom, !elem_of_get_schemaless_nodes. unfold ancestors.
    split; [| tauto]. intros [Hm Hs]. split; [split |]; [| done | done].
    by apply (reachable_ancestors h _ n m).
Qed.

Lemma elem_of_phase_set sm n : n ∈ phase_set sm ↔ sm !! n = Some ∅.
Proof.
  unfold phase_set. rewrite elem_of_dom. unfold is_Some.
  setoid_rewrite map_lookup_filter_Some. simpl. naive_solver.
Qed.

Lemma phase_set_subseteq sm : phase_set sm ⊆ dom sm.
Proof. intros n Hn%elem_of_phase_set. apply elem_of_dom. eauto. Qed.

Lemma elem_of_current_phase (o : Order nat) sm n :
  n ∈ current_phase o sm ↔ n ∈ phase_set sm.
Proof. unfold current_phase. fold (phase_set sm). by rewrite order_perm, elem_of_elements. Qed.

Lemma NoDup_current_phase (o : Order nat) sm : NoDup (current_phase o sm).
Proof. unfold current_phase. rewrite order_perm. apply NoDup_elements. Qed.

Lemma list_to_set_current_phase (o : Order nat) sm :
  list_to_set (current_phase o sm) = phase_set sm.
Proof.
  apply set_eq. intros n. by rewrite elem_of_list_to_set, elem_of_current_phase.
Qed.

Lemma current_phase_nil (o : Order nat) sm :
  current_phase o sm = [] ↔ phase_set sm = ∅.
Proof.
  rewrite <-(list_to_set_current_phase o). split.
  - by intros ->.
  - intros Hempty. destruct (current_phase o sm) as [| x l]; [done |]. set_solver.
Qed.

Lemma lookup_foldl_delete {A} (l : list nat) (m : gmap nat A) n :
  foldl (λ m' k, delete k m') m l !! n = if decide (n ∈ l) then None else m !! n.
Proof.
  revert m. induction l as [| x l IH]; intros m.
  - destruct (decide (n ∈ [])) as [Hin |]; [by apply elem_of_nil in Hin | done].
  - change (foldl (λ m' k, delete k m') m (x :: l))
      with (foldl (λ m' k, delete k m') (delete x m) l).
    rewrite IH. destruct (decide (n ∈ l)).
    + by rewrite decide_True by set_solver.
    + destruct (decide (n = x)) as [-> |].
      * rewrite lookup_delete_eq. by rewrite decide_True by set_solver.
      * rewrite lookup_delete_ne by done. by rewrite decide_False by set_solver.
Qed.

Lemma lookup_remove_phase l sm n :
  remove_phase l sm !! n =
  if decide (n ∈ l) then None else (λ d, d ∖ list_to_set l) <$> sm !! n.
Proof.
  unfold remove_phase. rewrite lookup_fmap, lookup_foldl_delete.
  by destruct (decide (n ∈ l)).
Qed.

Lemma dom_remove_phase l sm : dom (remove_phase l sm) = dom sm ∖ list_to_set l.
Proof.
  apply set_eq. intros n.
  rewrite elem_of_difference, elem_of_list_to_set, !elem_of_dom, lookup_remove_phase.
  destruct (decide (n ∈ l)).
  - split; [by intros [? ?] | tauto].
  - rewrite fmap_is_Some. tauto.
Qed.

Lemma remove_phase_set l l' sm :
  list_to_set (C:=gset nat) l = list_to_set l' → remove_phase l sm = remove_phase l' sm.
Proof.
  intros Heq. apply map_eq. intros n. rewrite !lookup_remove_phase, Heq.
  destruct (decide (n ∈ l)) as [Hin | Hnin], (decide (n ∈ l')) as [Hin' | Hnin'];
    try done; exfalso.
  - apply Hnin'. apply (elem_of_list_to_set (C:=gset nat)). rewrite <-Heq.
    by apply elem_of_list_to_set.
  - apply Hnin. apply (elem_of_list_to_set (C:=gset nat)). rewrite Heq.
    by apply elem_of_list_to_set.
Qed.

Lemma size_remove_phase l sm x :
  x ∈ l → x ∈ dom sm → size (remove_phase l sm) < size sm.
Proof.
  intros Hx Hdom. rewrite <-!size_dom, dom_remove_phase.
  apply subset_size. set_solver.
Qed.

Lemma phase_parents_done h0 out sm h n nd p :
  loop_inv h0 out sm h → sm !! n = Some ∅ → h !! n = Some nd →
  p ∈ Node.parents_with_dependencies nd → p ∉ dom sm.
Proof.
  intros [Hstatic Hpending Hblocking] Hn Hnd Hp Hdom.
  assert (ancestors h0 n p) as Hanc.
  { apply ancestors_parent.
    - eapply reachable_is_Some, Hpending, Hdom.
    - rewrite <-(same_static_pwd h h0) by done. unfold node_pwd. by rewrite Hnd. }
  pose proof (proj2 (Hblocking n ∅ Hn p) (conj Hdom Hanc)) as Hin.
  set_solver.
Qed.

Lemma phase_independent (o : Order nat) h0 out sm h :
  loop_inv h0 out sm h → independent h (current_phase o sm).
Proof.
  intros Hinv n nd p Hn Hnd Hp Hin.
  apply elem_of_current_phase, elem_of_phase_set in Hn.
  apply elem_of_current_phase, phase_set_subseteq in Hin.
  eapply phase_parents_done; [done | done | done | | done].
  unfold Node.parents_with_dependencies. set_solver.
Qed.

Lemma loop_inv_step root h0 out sm h l :
  loop_inv h0 out sm h →
  loop_inv h0 out (remove_phase l sm) (phase_heap root h (list_to_set l)).
Proof.
  intros [Hstatic Hpending Hblocking]. split.
  - eapply same_static_trans; [apply same_static_phase_heap | done].
  - intros n. rewrite dom_remove_phase. intros Hn. apply Hpending. set_solver.
  - intros n deps' Hn m. rewrite lookup_remove_phase in Hn.
    destruct (decide (n ∈ l)); [done |].
    destruct (sm !! n) as [deps |] eqn:Hsm; [| done]. simpl in Hn.
    injection Hn as <-.
    rewrite dom_remove_phase, !elem_of_difference, (Hblocking n deps Hsm m). tauto.
Qed.

Lemma fit_loop_done (o : Order nat) fuel root st :
  fit_loop o fuel root ∅ st = Some (Normal, st).
Proof. by destruct fuel. Qed.

Lemma fit_loop_stuck (o : Order nat) fuel root sm st :
  sm ≠ ∅ → current_phase o sm = [] →
  fit_loop o (S fuel) root sm st = Some (RuntimeError no_phase_msg, st).
Proof. intros Hne Hnil. simpl. rewrite decide_False by done. by rewrite Hnil. Qed.

Lemma fit_loop_phase (o : Order nat) fuel root sm st :
  sm ≠ ∅ → current_phase o sm ≠ [] →
  fit_loop o (S fuel) root sm st =
  fit_loop o fuel root (remove_phase (current_phase o sm) sm)
           (foldl (compute_node root) st (current_phase o sm)).
Proof.
  intros Hne Hnil. cbn [fit_loop]. rewrite decide_False by done.
  by destruct (current_phase o sm).
Qed.

Lemma fit_loop_fuel (o : Order nat) root fuel :
  ∀ sm st, size sm ≤ fuel → is_Some (fit_loop o fuel root sm st).
Proof.
  induction fuel as [| fuel IH]; intros sm st Hsize.
  - assert (sm = ∅) as -> by (apply map_size_empty_iff; lia). by eexists.
  - destruct (decide (sm = ∅)) as [-> | Hne]; [rewrite fit_loop_done; by eexists |].
    destruct (decide (current_phase o sm = [])) as [Hnil | Hnil].
    { rewrite fit_loop_stuck by done. by eexists. }
    rewrite fit_loop_phase by done. apply IH.
    destruct (current_phase o sm) as [| x l] eqn:Hphase; [done |].
    assert (x ∈ current_phase o sm) as Hx by (rewrite Hphase; set_solver).
    apply elem_of_current_phase, phase_set_subseteq in Hx.
    pose proof (size_remove_phase (x :: l) sm x).
    assert (x ∈ x :: l) by set_solver. naive_solver lia.
Qed.

(** The loop does not depend on the order in which a phase is processed. *)
Lemma fit_loop_order (o1 o2 : Order nat) root h0 out fuel :
  ∀ sm st1 st2,
    loop_inv h0 out sm (nodes st1) → nodes st1 = nodes st2 →
    prod_map id nodes <$> fit_loop o1 fuel root sm st1 =
    prod_map id nodes <$> fit_loop o2 fuel root sm st2.
Proof.
  induction fuel as [| fuel IH]; intros sm st1 st2 Hinv Heq.
  - simpl. destruct (decide (sm = ∅)); [| done]. simpl. by rewrite Heq.
  - destruct (decide (sm = ∅)) as [-> | Hne].
    { rewrite !fit_loop_done. simpl. by rewrite Heq. }
    pose proof (phase_independent o1 h0 out sm _ Hinv) as Hind1.
    pose proof (phase_independent o2 h0 out sm _ Hinv) as Hind2.
    rewrite Heq in Hind2.
    pose proof (list_to_set_current_phase o1 sm) as Hset1.
    pose proof (list_to_set_current_phase o2 sm) as Hset2.
    destruct (foldl_compute_node root _ (NoDup_current_phase o1 sm) st1 Hind1)
      as [Hnodes1 _].
    destruct (foldl_compute_node root _ (NoDup_current_phase o2 sm) st2 Hind2)
      as [Hnodes2 _].
    destruct (decide (phase_set sm = ∅)) as [Hempty | Hnonempty].
    + rewrite !fit_loop_stuck by (done || by apply current_phase_nil).
      simpl. by rewrite Heq.
    + rewrite !fit_loop_phase by (done || by rewrite current_phase_nil).
      rewrite (remove_phase_set (current_phase o2 sm) (current_phase o1 sm))
        by by rewrite Hset1, Hset2.
      apply IH.
      * rewrite Hnodes1. by apply loop_inv_step.
      * by rewrite Hnodes1, Hnodes2, Hset1, Hset2, Heq.
Qed.

Lemma elem_of_phase_calls root h l n arg :
  (n, arg) ∈ phase_calls root h l ↔
  n ∈ l ∧ ∃ nd, h !! n = Some nd ∧ arg = combined_schema h root nd.
Proof.
  unfold phase_calls. rewrite list_elem_of_omap. split.
  - intros (m & Hm & Heq). destruct (h !! m) as [nd |] eqn:Hnd; [| done].
    simpl in Heq. injection Heq as <- <-. eauto.
  - intros (Hn & nd & Hnd & ->). exists n. split; [done |]. by rewrite Hnd.
Qed.

Lemma phase_calls_fst root h l :
  (∀ n, n ∈ l → is_Some (h !! n)) → (phase_calls root h l).*1 = l.
Proof.
  intros Hsome. induction l as [| n l IH]; [done |].
  rewrite phase_calls_cons, fmap_app, IH by (intros m Hm; apply Hsome; set_solver).
  destruct (Hsome n) as [nd Hnd]; [set_solver |].
  unfold phase_calls. csimpl. by rewrite Hnd.
Qed.

Lemma loop_inv_is_Some h0 out sm h n :
  loop_inv h0 out sm h → n ∈ dom sm → is_Some (h !! n).
Proof.
  intros [Hstatic Hpending _] Hn.
  apply (same_static_is_Some h h0); [done |].
  eapply reachable_is_Some, Hpending, Hn.
Qed.

Lemma fit_loop_spec (o : Order nat) root h0 out fuel :
  ∀ sm st c st',
    loop_inv h0 out sm (nodes st) →
    fit_loop o fuel root sm st = Some (c, st') →
    same_static (nodes st') h0 ∧
    (∀ n, n ∉ dom sm → nodes st' !! n = nodes st !! n) ∧
    ∃ new, calls st' = calls st ++ new ∧
      (∀ n arg, (n, arg) ∈ new →
         n ∈ dom sm ∧
         ∃ nd, nodes st' !! n = Some nd ∧
               arg = combined_schema (nodes st') root nd ∧
               computed_with nd arg) ∧
      (c = Normal → new.*1 ≡ₚ elements (dom sm)).
Proof.
  induction fuel as [| fuel IH]; intros sm st c st' Hinv Hloop.
  - simpl in Hloop. destruct (decide (sm = ∅)) as [-> |]; [| done].
    injection Hloop as <- <-. split; [apply Hinv |]. split; [done |].
    exists []. rewrite app_nil_r, dom_empty_L, elements_empty.
    split; [done |]. split; [| done]. by intros n arg ?%elem_of_nil.
  - destruct (decide (sm = ∅)) as [-> | Hne].
    { rewrite fit_loop_done in Hloop. injection Hloop as <- <-.
      split; [apply Hinv |]. split; [done |].
      exists []. rewrite app_nil_r, dom_empty_L, elements_empty.
      split; [done |]. split; [| done]. by intros n arg ?%elem_of_nil. }
    destruct (decide (current_phase o sm = [])) as [Hnil | Hnil].
    { rewrite fit_loop_stuck in Hloop by done. injection Hloop as <- <-.
      split; [apply Hinv |]. split; [done |].
      exists []. rewrite app_nil_r.
      split; [done |]. split; [| done]. by intros n arg ?%elem_of_nil. }
    rewrite fit_loop_phase in Hloop by done.
    set (l := current_phase o sm) in *.
    destruct (foldl_compute_node root l (NoDup_current_phase o sm) st
                (phase_independent o h0 out sm _ Hinv)) as [Hnodes Hcalls].
    assert (loop_inv h0 out (remove_phase l sm)
              (nodes (foldl (compute_node root) st l))) as Hinv'.
    { rewrite Hnodes. by apply loop_inv_step. }
    destruct (IH _ _ _ _ Hinv' Hloop) as (Hstatic & Hsame & new & Hnew & Hargs & Hperm).
    assert (∀ n, n ∈ l → n ∈ dom sm) as Hldom.
    { intros n Hn. by apply elem_of_current_phase, phase_set_subseteq in Hn. }
    assert (∀ n, n ∉ l → nodes (foldl (compute_node root) st l) !! n = nodes st !! n)
      as Hout.
    { intros n Hn. rewrite Hnodes. apply phase_heap_unchanged.
      by rewrite elem_of_list_to_set. }
    split; [done |]. split.
    { intros n Hn. rewrite Hsame.
      - apply Hout. intros Hin. by apply Hn, Hldom.
      - rewrite dom_remove_phase. set_solver. }
    exists (phase_calls root (nodes st) l ++ new).
    split; [by rewrite Hnew, Hcalls, app_assoc |]. split.
    + intros n arg [Hin | Hin]%elem_of_app.
      * apply elem_of_phase_calls in Hin as (Hn & nd & Hnd & ->).
        split; [by apply Hldom |].
        exists (Node.compute_schemas nd (combined_schema (nodes st) root nd)).
        split; [| split].
        -- rewrite Hsame by (rewrite dom_remove_phase, elem_of_difference,
                               elem_of_list_to_set; tauto).
           rewrite Hnodes, lookup_phase_heap, Hnd. simpl.
           by rewrite decide_True by by apply elem_of_list_to_set.
        -- apply combined_schema_ext; [by rewrite parents_compute_schemas |].
           intros p Hp.
           assert (p ∉ dom sm) as Hpdom.
           { apply elem_of_current_phase, elem_of_phase_set in Hn.
             eapply phase_parents_done; [done | done | done |].
             unfold Node.parents_with_dependencies. set_solver. }
           rewrite Hsame by (rewrite dom_remove_phase; set_solver).
           rewrite Hout; [done |]. intros Hpl. by apply Hpdom, Hldom.
        -- unfold computed_with.
           by rewrite input_schema_compute_schemas, output_schema_compute_schemas,
             op_compute_schemas.
      * destruct (Hargs n arg Hin) as [Hn Hrest]. split; [| done].
        rewrite dom_remove_phase in Hn. set_solver.
    + intros Hc. rewrite fmap_app, (Hperm Hc), phase_calls_fst.
      2:{ intros n Hn. eapply loop_inv_is_Some; [done |]. by apply Hldom. }
      rewrite dom_remove_phase.
      assert (dom sm = list_to_set l ∪ dom sm ∖ list_to_set l) as Hsplit.
      { apply set_eq. intros n.
        rewrite elem_of_union, elem_of_difference, elem_of_list_to_set.
        destruct (decide (n ∈ l)); naive_solver. }
      rewrite Hsplit at 2. rewrite elements_disj_union by set_solver.
      apply Permutation_app_tail.
      unfold l. rewrite list_to_set_current_phase. unfold current_phase.
      fold (phase_set sm). apply order_perm.
Qed.

(** ** Progress on acyclic graphs, failure on cycles *)

Lemma acyclic_phase h0 out sm h :
  loop_inv h0 out sm h → acyclic h0 out → sm ≠ ∅ → phase_set sm ≠ ∅.
Proof.
  intros [Hstatic Hpending Hblocking] Hacyclic Hne.
  assert (∀ k n deps, sm !! n = Some deps → size deps ≤ k →
                      ∃ n', sm !! n' = Some ∅) as Hmin.
  { induction k as [| k IH]; intros n deps Hn Hsize.
    - assert (deps = ∅) as -> by (apply leibniz_equiv, size_empty_iff; lia). eauto.
    - destruct (decide (deps = ∅)) as [-> | Hdeps]; [eauto |].
      apply set_choose_L in Hdeps as [m Hm].
      destruct (proj1 (Hblocking n deps Hn m) Hm) as [Hmdom Hanc].
      apply elem_of_dom in Hmdom as Hlook. destruct Hlook as [deps' Hm'].
      apply (IH m deps' Hm').
      assert (deps' ⊂ deps) as Hsub%subset_size; [| lia].
      split.
      + intros k' Hk'. apply (Hblocking n deps Hn).
        destruct (proj1 (Hblocking m deps' Hm' k') Hk') as [? Hanc'].
        split; [done |]. by eapply ancestors_trans.
      + intros Hsub. specialize (Hsub m Hm).
        destruct (proj1 (Hblocking m deps' Hm' m) Hsub) as [_ Hself].
        by apply (Hacyclic m (Hpending m Hmdom)). }
  apply map_choose in Hne as (n & deps & Hn).
  destruct (Hmin (size deps) n deps Hn) as [n' Hn']; [done |].
  apply elem_of_phase_set in Hn'. set_solver.
Qed.

Lemma fit_loop_acyclic (o : Order nat) root h0 out fuel :
  acyclic h0 out →
  ∀ sm st, loop_inv h0 out sm (nodes st) → size sm ≤ fuel →
           ∃ st', fit_loop o fuel root sm st = Some (Normal, st').
Proof.
  intros Hacyclic. induction fuel as [| fuel IH]; intros sm st Hinv Hsize.
  - assert (sm = ∅) as -> by (apply map_size_empty_iff; lia). by eexists.
  - destruct (decide (sm = ∅)) as [-> | Hne]; [rewrite fit_loop_done; by eexists |].
    pose proof (acyclic_phase h0 out sm _ Hinv Hacyclic Hne) as Hphase.
    rewrite <-(current_phase_nil o) in Hphase.
    rewrite fit_loop_phase by done.
    destruct (foldl_compute_node root _ (NoDup_current_phase o sm) st
                (phase_independent o h0 out sm _ Hinv)) as [Hnodes _].
    apply IH.
    + rewrite Hnodes. by apply loop_inv_step.
    + destruct (current_phase o sm) as [| x l] eqn:Hl; [done |].
      assert (x ∈ current_phase o sm) as Hx by (rewrite Hl; set_solver).
      apply elem_of_current_phase, phase_set_subseteq in Hx.
      pose proof (size_remove_phase (x :: l) sm x).
      assert (x ∈ x :: l) by set_solver. naive_solver lia.
Qed.

Lemma fit_loop_cycle (o : Order nat) root h0 out c fuel :
  ancestors h0 c c →
  ∀ sm st, loop_inv h0 out sm (nodes st) → c ∈ dom sm → size sm ≤ fuel →
           ∃ st', fit_loop o fuel root sm st = Some (RuntimeError no_phase_msg, st').
Proof.
  intros Hcycle. induction fuel as [| fuel IH]; intros sm st Hinv Hc Hsize.
  - assert (sm = ∅) as -> by (apply map_size_empty_iff; lia). set_solver.
  - assert (sm ≠ ∅) as Hne by (intros ->; set_solver).
    destruct (decide (current_phase o sm = [])) as [Hnil | Hnil].
    { rewrite fit_loop_stuck by done. by eexists. }
    rewrite fit_loop_phase by done.
    destruct (foldl_compute_node root _ (NoDup_current_phase o sm) st
                (phase_independent o h0 out sm _ Hinv)) as [Hnodes _].
    apply IH.
    + rewrite Hnodes. by apply loop_inv_step.
    + rewrite dom_remove_phase, elem_of_difference, elem_of_list_to_set.
      split; [done |]. intros Hin%elem_of_current_phase%elem_of_phase_set.
      pose proof (proj2 (inv_blocking _ _ _ _ Hinv c ∅ Hin c) (conj Hc Hcycle)).
      set_solver.
    + destruct (current_phase o sm) as [| x l] eqn:Hl; [done |].
      assert (x ∈ current_phase o sm) as Hx by (rewrite Hl; set_solver).
      apply elem_of_current_phase, phase_set_subseteq in Hx.
      pose proof (size_remove_phase (x :: l) sm x).
      assert (x ∈ x :: l) by set_solver. naive_solver lia.
Qed.

(** ** [_get_unique] and [_input_columns] *)

Lemma dict_set_keys {V} (d : list (string * V)) k v :
  (dict_set d k v).*1 = if decide (k ∈ d.*1) then d.*1 else d.*1 ++ [k].
Proof.
  unfold dict_set. destruct (decide (k ∈ d.*1)).
  - rewrite <-list_fmap_compose. apply list_fmap_ext. intros i [k' v'] _. simpl.
    by destruct (decide (k' = k)) as [-> |].
  - by rewrite fmap_app.
Qed.

Lemma get_unique_add_keys cols : _get_unique cols = add_keys [] cols.
Proof.
  unfold _get_unique, add_keys.
  change (@nil string) with ((@nil (string * string)).*1) at 2.
  generalize (@nil (string * string)).
  induction cols as [| x cols IH]; intros d; simpl; [done |].
  by rewrite IH, dict_set_keys.
Qed.

Lemma elem_of_add_keys ks cols x : x ∈ add_keys ks cols ↔ x ∈ ks ∨ x ∈ cols.
Proof.
  unfold add_keys. revert ks. induction cols as [| y cols IH]; intros ks; simpl.
  - set_solver.
  - rewrite IH. destruct (decide (y ∈ ks)); set_solver.
Qed.

Lemma NoDup_add_keys ks cols : NoDup ks → NoDup (add_keys ks cols).
Proof.
  unfold add_keys. revert ks. induction cols as [| y cols IH]; intros ks Hks; simpl.
  - done.
  - apply IH. destruct (decide (y ∈ ks)); [done |].
    apply NoDup_app. split; [done |]. split; [set_solver | apply NoDup_singleton].
Qed.

Lemma add_keys_app ks cols :
  add_keys ks cols = ks ++ filter (λ x, x ∉ ks) (add_keys [] cols).
Proof.
  revert ks. induction cols as [| y cols IH]; intros ks.
  - simpl. by rewrite app_nil_r.
  - change (add_keys ks (y :: cols))
      with (add_keys (if decide (y ∈ ks) then ks else ks ++ [y]) cols).
    change (add_keys [] (y :: cols)) with (add_keys [y] cols).
    rewrite (IH [y]). rewrite filter_app.
    destruct (decide (y ∈ ks)) as [Hin | Hnin].
    + rewrite filter_cons_False by (intros Hy; by apply Hy).
      rewrite filter_nil, app_nil_l, list_filter_filter_l by set_solver.
      apply IH.
    + rewrite filter_cons_True by done. rewrite filter_nil.
      rewrite list_filter_filter, IH, <-app_assoc. do 2 f_equal.
      apply list_filter_iff. set_solver.
Qed.

Lemma elem_of_get_unique cols x : x ∈ _get_unique cols ↔ x ∈ cols.
Proof. rewrite get_unique_add_keys, elem_of_add_keys. set_solver. Qed.

Lemma NoDup_get_unique cols : NoDup (_get_unique cols).
Proof. rewrite get_unique_add_keys. apply NoDup_add_keys. constructor. Qed.

(** Columns are kept where they are first seen. *)
Lemma get_unique_app l1 l2 :
  _get_unique (l1 ++ l2) = _get_unique l1 ++ filter (λ x, x ∉ l1) (_get_unique l2).
Proof.
  rewrite !get_unique_add_keys. unfold add_keys at 1. rewrite foldl_app.
  fold (add_keys [] l1). fold (add_keys (add_keys [] l1) l2).
  rewrite add_keys_app. f_equal. apply list_filter_iff.
  intros x. rewrite elem_of_add_keys. set_solver.
Qed.

Lemma elem_of_foldl_app {A} (f : A → list string) (l : list A) acc x :
  x ∈ foldl (λ a n, a ++ f n) acc l ↔ x ∈ acc ∨ ∃ n, n ∈ l ∧ x ∈ f n.
Proof.
  revert acc. induction l as [| n l IH]; intros acc; simpl.
  - set_solver.
  - rewrite IH. set_solver.
Qed.

Lemma foldl_app_concat {A} (f : A → list string) (l : list A) acc :
  foldl (λ a n, a ++ f n) acc l = acc ++ concat (f <$> l).
Proof.
  revert acc. induction l as [| n l IH]; intros acc; simpl.
  - by rewrite app_nil_r.
  - by rewrite IH, app_assoc.
Qed.

Lemma elem_of_upstream_output_cols h nd c :
  c ∈ upstream_output_cols h nd ↔
  ∃ p, p ∈ Node.parents_with_dependencies nd ∧ c ∈ output_column_names h p.
Proof.
  unfold upstream_output_cols. rewrite elem_of_get_unique, elem_of_foldl_app.
  set_solver.
Qed.

Lemma elem_of_external_cols (no : Order string) h n c :
  c ∈ external_cols no h n ↔
  ∃ nd, h !! n = Some nd ∧ c ∈ Node.input_columns nd ∧
        ∀ p, p ∈ Node.parents_with_dependencies nd → c ∉ output_column_names h p.
Proof.
  unfold external_cols. destruct (h !! n) as [nd |].
  - rewrite order_perm, elem_of_elements, elem_of_difference, !elem_of_list_to_set,
      elem_of_upstream_output_cols.
    split.
    + intros [Hin Hnot]. exists nd. split; [done |]. split; [done |].
      intros p Hp Hc. apply Hnot. eauto.
    + intros (? & [= <-] & Hin & Hnot). split; [done |].
      intros (p & Hp & Hc). by apply (Hnot p).
  - split; [by intros ?%elem_of_nil | by intros (? & ? & _)].
Qed.

Lemma elem_of_input_columns (no : Order string) h g c :
  c ∈ _input_columns no h g ↔ external_input h (Graph.output_node g) c.
Proof.
  unfold _input_columns, external_input.
  rewrite elem_of_get_unique, elem_of_foldl_app.
  setoid_rewrite elem_of_iter_nodes. setoid_rewrite elem_of_external_cols.
  split.
  - intros [?%elem_of_nil | (n & Hn & nd & ?)]; [done |]. by exists n, nd.
  - intros (n & nd & Hn & ?). right. exists n. split; [done |]. by exists nd.
Qed.

(** ** [fit_schema] *)

Lemma fit_schema_inv (o : Order nat) (no : Order string) root g st r st' :
  fit_schema o no root g st = Some (r, st') →
  ∃ c, fit_loop o (size (initial_schemaless_nodes (nodes st) g)) root
                (initial_schemaless_nodes (nodes st) g) st = Some (c, st') ∧
       r = match c with
           | Normal => Return (fitted_graph no root g (nodes st'))
           | RuntimeError msg => Raise msg
           end.
Proof.
  unfold fit_schema. intros Hfit.
  destruct (fit_loop _ _ _ _ _) as [[[| msg] st1] |]; [| | done];
    injection Hfit as <- <-; eauto.
Qed.

Lemma fit_schema_total (o : Order nat) (no : Order string) root g st :
  is_Some (fit_schema o no root g st).
Proof.
  unfold fit_schema.
  destruct (fit_loop_fuel o root _ (initial_schemaless_nodes (nodes st) g) st
              (reflexivity _)) as [[[| msg] st'] ->]; by eexists.
Qed.

Lemma lookup_foldl_merge h l acc c :
  foldl schema_merge acc (omap (truthy_output_schema h) l) !! c =
  match latest_producer h l c with Some d => Some d | None => acc !! c end.
Proof.
  revert acc. induction l as [| p l IH]; intros acc; [done |].
  csimpl. cbn [latest_producer].
  destruct (truthy_output_schema h p) as [s |] eqn:Htruthy; csimpl; rewrite IH;
    destruct (latest_producer h l c); try done;
    unfold truthy_output_schema in Htruthy;
    destruct (h !! p ≫= Node.output_schema) as [s' |]; simplify_eq/=; try done.
  - destruct (decide (s' = ∅)); simplify_eq/=.
    unfold schema_merge. rewrite lookup_union.
    by destruct (s !! c), (acc !! c).
  - destruct (decide (s' = ∅)) as [-> |]; simplify_eq/=.
    by rewrite lookup_empty.
Qed.

Lemma lookup_combined_schema h root nd c :
  combined_schema h root nd !! c =
  match Node.parents nd with
  | [] => root !! c
  | _ :: _ => match latest_producer h (Node.parents nd) c with
              | Some d => Some d
              | None => root !! c
              end
  end.
Proof.
  unfold combined_schema. destruct (Node.parents nd) as [| p ps]; [done |].
  unfold schema_merge at 1. rewrite lookup_union, lookup_foldl_merge.
  destruct (latest_producer h (p :: ps) c).
  - by destruct (root !! c).
  - rewrite lookup_empty. by destruct (root !! c).
Qed.

(** The filter on a parent's output schema being non-empty is immaterial:
    [combined_schema] merges the output schemas of all the data-parents. *)
Lemma combined_schema_all h root nd :
  Node.parents nd ≠ [] →
  combined_schema h root nd =
  schema_merge root
    (foldl schema_merge ∅
       (omap (λ p, h !! p ≫= Node.output_schema) (Node.parents nd))).
Proof.
  intros Hne. apply map_eq. intros c. rewrite lookup_combined_schema.
  destruct (Node.parents nd) as [| p ps] eqn:Hps; [done |].
  unfold schema_merge at 1. rewrite lookup_union.
  assert (∀ l acc,
    foldl schema_merge acc (omap (λ p, h !! p ≫= Node.output_schema) l) !! c =
    match latest_producer h l c with Some d => Some d | None => acc !! c end) as ->.
  { induction l as [| q l IH]; intros acc; [done |].
    csimpl. cbn [latest_producer].
    destruct (h !! q ≫= Node.output_schema) as [s |]; csimpl; rewrite IH;
      destruct (latest_producer h l c); try done.
    unfold schema_merge. rewrite lookup_union. by destruct (s !! c), (acc !! c). }
  destruct (latest_producer h (p :: ps) c).
  - by destruct (root !! c).
  - rewrite lookup_empty. by destruct (root !! c).
Qed.

Lemma loop_step_size (o : Order nat) root s s' :
  loop_step o root s s' → size s'.1 < size s.1.
Proof.
  intros (Hne & Hphase & ->). simpl.
  destruct (current_phase o s.1) as [| x l] eqn:Hl; [done |].
  assert (x ∈ current_phase o s.1) as Hx by (rewrite Hl; set_solver).
  apply elem_of_current_phase, phase_set_subseteq in Hx.
  apply (size_remove_phase (x :: l) s.1 x); [set_solver | done].
Qed.

Lemma fit_loop_reaches_stuck (o : Order nat) root s s' :
  rtc (loop_step o root) s s' → s'.1 ≠ ∅ → phase_set s'.1 = ∅ →
  ∀ fuel, size s.1 ≤ fuel →
          fit_loop o fuel root s.1 s.2 = Some (RuntimeError no_phase_msg, s'.2).
Proof.
  induction 1 as [s | s1 s2 s3 Hstep Hrtc IH]; intros Hne Hstuck fuel Hfuel.
  - destruct fuel as [| fuel].
    + exfalso. apply Hne, map_size_empty_iff. lia.
    + apply fit_loop_stuck; [done |]. by apply current_phase_nil.
  - pose proof (loop_step_size o root _ _ Hstep) as Hsize.
    destruct Hstep as (Hne1 & Hphase & ->).
    destruct fuel as [| fuel]; [lia |].
    rewrite fit_loop_phase by done. apply IH; simpl in *; [done | done | lia].
Qed.

Lemma fit_schema_observable (o1 o2 : Order nat) (no1 no2 : Order string)
    root g1 g2 st1 st2 :
  nodes st1 = nodes st2 → Graph.output_node g1 = Graph.output_node g2 →
  prod_map id nodes <$> fit_schema o1 no1 root g1 st1 =
  prod_map id nodes <$> fit_schema o2 no2 root g2 st2.
Proof.
  intros Hnodes Hout.
  assert (initial_schemaless_nodes (nodes st1) g1 =
          initial_schemaless_nodes (nodes st2) g2) as Hinit.
  { unfold initial_schemaless_nodes. by rewrite Hnodes, Hout. }
  pose proof (fit_loop_order o1 o2 root (nodes st1) (Graph.output_node g1)
                (size (initial_schemaless_nodes (nodes st1) g1))
                (initial_schemaless_nodes (nodes st1) g1) st1 st2
                (loop_inv_init (nodes st1) g1) Hnodes) as Hloop.
  unfold fit_schema. rewrite <-Hinit.
  destruct (fit_loop o1 _ _ _ _) as [[c1 st1'] |],
           (fit_loop o2 _ _ _ _) as [[c2 st2'] |]; try done.
  simpl in Hloop. injection Hloop as -> Hnodes'.
  destruct c2 as [| msg]; simpl; rewrite Hnodes'; [| done].
  do 3 f_equal. unfold fitted_graph. rewrite Hout. do 2 f_equal.
  apply map_filter_ext. intros c d _. simpl.
  rewrite !elem_of_input_columns. by rewrite Hout.
Qed.

Lemma loop_trace_inv (o : Order nat) root h0 out s0 s :
  rtc (loop_step o root) s0 s →
  loop_inv h0 out s0.1 (nodes s0.2) →
  loop_inv h0 out s.1 (nodes s.2) ∧ ∃ pre, calls s.2 = calls s0.2 ++ pre.
Proof.
  induction 1 as [s | s1 s2 s3 Hstep Hrtc IH]; intros Hinv.
  - split; [done |]. exists []. by rewrite app_nil_r.
  - destruct Hstep as (Hne & Hphase & ->).
    destruct (foldl_compute_node root _ (NoDup_current_phase o s1.1) s1.2
                (phase_independent o h0 out s1.1 _ Hinv)) as [Hnodes Hcalls].
    destruct IH as [Hinv3 [pre Hpre]].
    { simpl. rewrite Hnodes. by apply loop_inv_step. }
    split; [done |]. simpl in Hpre. rewrite Hcalls in Hpre.
    eexists. rewrite Hpre, <-app_assoc. done.
Qed.

Lemma fit_loop_trace (o : Order nat) root s s' :
  rtc (loop_step o root) s s' →
  ∀ fuel, size s.1 ≤ fuel →
          ∃ fuel', size s'.1 ≤ fuel' ∧
                   fit_loop o fuel root s.1 s.2 = fit_loop o fuel' root s'.1 s'.2.
Proof.
  induction 1 as [s | s1 s2 s3 Hstep Hrtc IH]; intros fuel Hfuel.
  - by exists fuel.
  - pose proof (loop_step_size o root _ _ Hstep) as Hsize.
    destruct Hstep as (Hne & Hphase & ->).
    destruct fuel as [| fuel]; [lia |].
    rewrite fit_loop_phase by done.
    apply (IH fuel). simpl in *. lia.
Qed.

(** A node of a phase that the loop processes has its call recorded. *)
Lemma fit_loop_phase_called (o : Order nat) root h0 out sm0 st0 c st' sm st_k n :
  loop_inv h0 out sm0 (nodes st0) →
  fit_loop o (size sm0) root sm0 st0 = Some (c, st') →
  rtc (loop_step o root) (sm0, st0) (sm, st_k) →
  sm ≠ ∅ → n ∈ current_phase o sm →
  ∃ pre arg post, calls st' = calls st0 ++ pre ++ (n, arg) :: post.
Proof.
  intros Hinv Hloop Hrtc Hne Hn.
  destruct (loop_trace_inv o root h0 out _ _ Hrtc Hinv) as [Hinv_k [pre Hpre]].
  destruct (fit_loop_trace o root _ _ Hrtc (size sm0) (reflexivity _))
    as (fuel & Hfuel & Heq).
  simpl in *. rewrite Heq in Hloop.
  destruct fuel as [| fuel].
  { exfalso. apply Hne, map_size_empty_iff. lia. }
  assert (current_phase o sm ≠ []) as Hphase
    by (intros Hnil; rewrite Hnil in Hn; by apply elem_of_nil in Hn).
  rewrite fit_loop_phase in Hloop by done.
  destruct (foldl_compute_node root _ (NoDup_current_phase o sm) st_k
              (phase_independent o h0 out sm _ Hinv_k)) as [Hnodes Hcalls].
  assert (loop_inv h0 out (remove_phase (current_phase o sm) sm)
            (nodes (foldl (compute_node root) st_k (current_phase o sm)))) as Hinv'.
  { rewrite Hnodes. by apply loop_inv_step. }
  destruct (fit_loop_spec o root h0 out _ _ _ _ _ Hinv' Hloop)
    as (_ & _ & new1 & Hnew1 & _).
  destruct (loop_inv_is_Some h0 out sm (nodes st_k) n Hinv_k) as [nd Hnd].
  { by apply elem_of_current_phase, phase_set_subseteq in Hn. }
  assert ((n, combined_schema (nodes st_k) root nd)
          ∈ phase_calls root (nodes st_k) (current_phase o sm)) as Hin.
  { apply elem_of_phase_calls. eauto. }
  apply list_elem_of_split in Hin as (l1 & l2 & Hsplit).
  exists (pre ++ l1), (combined_schema (nodes st_k) root nd), (l2 ++ new1).
  rewrite Hnew1, Hcalls, Hpre, Hsplit. by rewrite <-!app_assoc.
Qed.

(** * The claims about [Graph.fit_schema] *)

(** C1. When [fit_schema] returns, [graph.output_schema] is the output schema
    of the output node, and [graph.input_schema] holds exactly the column
    descriptors of the root schema whose names are external inputs of the
    graph: consumed by some reachable node and produced by none of that
    node's parents and dependencies. *)
Theorem fit_schema_graph_schemas (o : Order nat) (no : Order string)
    root g st g' st' :
  fit_schema o no root g st = Some (Return g', st') →
  Graph.output_schema g' = nodes st' !! Graph.output_node g' ≫= Node.output_schema ∧
  ∃ s, Graph.input_schema g' = Some s ∧
       ∀ c d, s !! c = Some d ↔
              root !! c = Some d ∧
              external_input (nodes st') (Graph.output_node g') c.
Proof.
  intros (c & _ & Hr)%fit_schema_inv.
  destruct c as [| msg]; [| done]. injection Hr as ->.
  split; [done |]. eexists. split; [done |].
  intros c d. rewrite map_lookup_filter_Some. simpl.
  by rewrite elem_of_input_columns.
Qed.

(** C2. When the loop reaches a state in which nodes are pending and none of
    them has an empty blocking set, [fit_schema] raises the error of line 47
    and leaves the state of that moment; in particular it raises, instead of
    looping or returning, when a schemaless node reachable from the output
    node lies on a cycle of parents and dependencies. *)
Theorem fit_schema_stuck_raises (o : Order nat) (no : Order string) root g st :
  (∀ sm st_k,
     rtc (loop_step o root) (initial_schemaless_nodes (nodes st) g, st) (sm, st_k) →
     sm ≠ ∅ → phase_set sm = ∅ →
     fit_schema o no root g st = Some (Raise no_phase_msg, st_k)) ∧
  (∀ c,
     reachable (nodes st) [Graph.output_node g] c →
     schemaless (nodes st) c = true →
     ancestors (nodes st) c c →
     ∃ st', fit_schema o no root g st = Some (Raise no_phase_msg, st')).
Proof.
  split.
  - intros sm st_k Hrtc Hne Hstuck. unfold fit_schema.
    pose proof (fit_loop_reaches_stuck o root _ _ Hrtc Hne Hstuck _ (reflexivity _))
      as Hloop.
    simpl in Hloop. by rewrite Hloop.
  - intros c Hreach Hless Hcycle. unfold fit_schema.
    destruct (fit_loop_cycle o root (nodes st) (Graph.output_node g) c
                (size (initial_schemaless_nodes (nodes st) g)) Hcycle
                (initial_schemaless_nodes (nodes st) g) st) as [st' ->].
    + apply loop_inv_init.
    + apply elem_of_dom. unfold is_Some.
      setoid_rewrite lookup_initial_schemaless_nodes.
      eexists. split; [| done]. by apply elem_of_get_schemaless_nodes.
    + done.
    + by exists st'.
Qed.

(** C3. Every node of every phase that the loop of [fit_schema] processes has
    [compute_schemas] called on it, and when [fit_schema] returns that is
    every node reachable from the output node that had no input schema.
    Every such call passes the root schema itself when the node has no
    data-parents; otherwise it passes a schema in which a column has the
    descriptor given by the last data-parent, in parent-list order, whose
    output schema has that column, and the root schema's descriptor only when
    no data-parent produces the column.  The node ends up holding the schemas
    its operator computes from that schema. *)
Theorem fit_schema_calls (o : Order nat) (no : Order string) root g st r st' :
  fit_schema o no root g st = Some (r, st') →
  ∃ new, calls st' = calls st ++ new ∧
    (∀ sm st_k n,
       rtc (loop_step o root) (initial_schemaless_nodes (nodes st) g, st) (sm, st_k) →
       sm ≠ ∅ → n ∈ current_phase o sm →
       ∃ arg, (n, arg) ∈ new) ∧
    (∀ g' n,
       r = Return g' →
       reachable (nodes st) [Graph.output_node g] n →
       schemaless (nodes st) n = true →
       ∃ arg, (n, arg) ∈ new) ∧
    ∀ n arg, (n, arg) ∈ new →
      ∃ nd, nodes st' !! n = Some nd ∧ computed_with nd arg ∧
            (Node.parents nd = [] → arg = root) ∧
            (Node.parents nd ≠ [] →
             arg = schema_merge root
                     (foldl schema_merge ∅
                        (omap (λ p, nodes st' !! p ≫= Node.output_schema)
                              (Node.parents nd))) ∧
             ∀ c, arg !! c =
                  match latest_producer (nodes st') (Node.parents nd) c with
                  | Some d => Some d
                  | None => root !! c
                  end).
Proof.
  intros (c & Hloop & Hr)%fit_schema_inv.
  destruct (fit_loop_spec o root (nodes st) (Graph.output_node g) _ _ _ _ _
              (loop_inv_init (nodes st) g) Hloop)
    as (_ & _ & new & Hnew & Hargs & Hperm).
  exists new. split; [done |]. split; [| split].
  - intros sm st_k n Hrtc Hne Hn.
    destruct (fit_loop_phase_called o root (nodes st) (Graph.output_node g)
                _ _ _ _ _ _ n (loop_inv_init (nodes st) g) Hloop Hrtc Hne Hn)
      as (pre & arg & post & Hcalls).
    rewrite Hnew in Hcalls. apply app_inv_head in Hcalls. subst new.
    exists arg. set_solver.
  - intros g' n -> Hreach Hless.
    destruct c as [| msg]; [| done]. specialize (Hperm eq_refl).
    assert (n ∈ new.*1) as Hin.
    { rewrite Hperm. apply elem_of_elements, elem_of_dom. unfold is_Some.
      setoid_rewrite lookup_initial_schemaless_nodes.
      eexists. split; [| done]. by apply elem_of_get_schemaless_nodes. }
    apply list_elem_of_fmap in Hin as ([n' arg] & -> & Hin). eauto.
  - intros n arg Hin.
    destruct (Hargs n arg Hin) as (_ & nd & Hnd & -> & Hcomputed).
    exists nd. split; [done |]. split; [done |]. split.
    + intros Hnil. unfold combined_schema. by rewrite Hnil.
    + intros Hne. split; [by apply combined_schema_all |].
      intros col. rewrite lookup_combined_schema.
      by destruct (Node.parents nd).
Qed.

(** C4. [_input_columns] goes through the nodes reachable from the output
    node, each once; a node contributes those of its input columns that are
    not output columns of its parents and dependencies; the contributions are
    concatenated and passed to [_get_unique], which removes duplicates and
    keeps every name where it is first seen; [graph.input_schema] is the root
    schema restricted to the names so obtained. *)
Theorem input_columns_computation (o : Order nat) (no : Order string)
    root g st g' st' :
  fit_schema o no root g st = Some (Return g', st') →
  (NoDup (iter_nodes (nodes st') [Graph.output_node g]) ∧
   ∀ n, n ∈ iter_nodes (nodes st') [Graph.output_node g] ↔
        reachable (nodes st') [Graph.output_node g] n) ∧
  (∀ n c, c ∈ external_cols no (nodes st') n ↔
          ∃ nd, nodes st' !! n = Some nd ∧ c ∈ Node.input_columns nd ∧
                ∀ p, p ∈ Node.parents_with_dependencies nd →
                     c ∉ output_column_names (nodes st') p) ∧
  _input_columns no (nodes st') g =
    _get_unique (concat (external_cols no (nodes st')
                           <$> iter_nodes (nodes st') [Graph.output_node g])) ∧
  (∀ l, NoDup (_get_unique l) ∧ ∀ x, x ∈ _get_unique l ↔ x ∈ l) ∧
  (∀ l1 l2, _get_unique (l1 ++ l2) =
            _get_unique l1 ++ filter (λ x, x ∉ l1) (_get_unique l2)) ∧
  Graph.input_schema g' =
    Some (filter (λ kv, kv.1 ∈ _input_columns no (nodes st') g) root).
Proof.
  intros (c & _ & Hr)%fit_schema_inv.
  destruct c as [| msg]; [| done]. injection Hr as ->.
  split; [split; [apply iter_nodes_NoDup | apply elem_of_iter_nodes] |].
  split; [apply elem_of_external_cols |].
  split; [unfold _input_columns; by rewrite foldl_app_concat |].
  split; [intros l; split; [apply NoDup_get_unique | apply elem_of_get_unique] |].
  split; [apply get_unique_app | done].
Qed.

(** C5. On an acyclic graph [fit_schema] returns, and [compute_schemas] has
    then been called exactly once on every node reachable from the output
    node that started without a schema, and on no other node; each such node
    holds an input and an output schema. *)
Theorem fit_schema_acyclic (o : Order nat) (no : Order string) root g st :
  acyclic (nodes st) (Graph.output_node g) →
  ∃ g' st' new,
    fit_schema o no root g st = Some (Return g', st') ∧
    calls st' = calls st ++ new ∧
    NoDup new.*1 ∧
    ∀ n, (n ∈ new.*1 ↔
          reachable (nodes st) [Graph.output_node g] n ∧
          schemaless (nodes st) n = true) ∧
         (n ∈ new.*1 →
          ∃ nd, nodes st' !! n = Some nd ∧
                is_Some (Node.input_schema nd) ∧ is_Some (Node.output_schema nd)).
Proof.
  intros Hacyclic.
  destruct (fit_loop_acyclic o root (nodes st) (Graph.output_node g)
              (size (initial_schemaless_nodes (nodes st) g)) Hacyclic
              (initial_schemaless_nodes (nodes st) g) st
              (loop_inv_init (nodes st) g) (reflexivity _)) as [st' Hloop].
  destruct (fit_loop_spec o root (nodes st) (Graph.output_node g) _ _ _ _ _
              (loop_inv_init (nodes st) g) Hloop)
    as (_ & _ & new & Hnew & Hargs & Hperm).
  specialize (Hperm eq_refl).
  exists (fitted_graph no root g (nodes st')), st', new.
  split; [unfold fit_schema; by rewrite Hloop |].
  split; [done |].
  split; [rewrite Hperm; apply NoDup_elements |].
  intros n. split.
  - rewrite Hperm, elem_of_elements, elem_of_dom. unfold is_Some.
    setoid_rewrite lookup_initial_schemaless_nodes.
    rewrite <-elem_of_get_schemaless_nodes. naive_solver.
  - intros ([n' arg] & -> & Hin)%list_elem_of_fmap. simpl.
    destruct (Hargs n' arg Hin) as (_ & nd & Hnd & _ & Hin' & Hout').
    exists nd. rewrite Hin', Hout'. eauto.
Qed.

(** C7. The heap and the graph that [fit_schema] produces, or the error it
    raises, do not depend on the order in which the nodes of a phase are
    processed (nor on the order in which sets of column names are listed). *)
Theorem fit_schema_order_independent (o1 o2 : Order nat) (no1 no2 : Order string)
    root g st :
  prod_map id nodes <$> fit_schema o1 no1 root g st =
  prod_map id nodes <$> fit_schema o2 no2 root g st.
Proof. by apply fit_schema_observable. Qed.

(** ** Zeroing the schemas and fitting again *)

Lemma acyclic_iter_nodes h out :
  acyclic h out ↔
  Forall (λ n, n ∉ iter_nodes h (node_pwd h n)) (iter_nodes h [out]).
Proof.
  unfold acyclic, ancestors. rewrite Forall_forall.
  setoid_rewrite elem_of_iter_nodes. done.
Qed.

Lemma unfitted_iter_nodes h out :
  Forall (λ n, node_schemas h n = Some (None, None)) (iter_nodes h [out]) →
  unfitted h out.
Proof.
  rewrite Forall_forall. intros Hall n nd Hn%elem_of_iter_nodes Hnd.
  specialize (Hall n Hn). unfold node_schemas in Hall. rewrite Hnd in Hall.
  simpl in Hall. by injection Hall as -> ->.
Qed.

Lemma zero_zero nd : Node.zero (Node.zero nd) = Node.zero nd.
Proof. done. Qed.

Lemma zero_unfitted nd :
  Node.input_schema nd = None → Node.output_schema nd = None → Node.zero nd = nd.
Proof. destruct nd. simpl. by intros -> ->. Qed.

Lemma lookup_foldl_zero (l : list nat) (h : heap) n :
  foldl (λ h' k, alter Node.zero k h') h l !! n =
  if decide (n ∈ l) then Node.zero <$> h !! n else h !! n.
Proof.
  revert h. induction l as [| x l IH]; intros h.
  - destruct (decide (n ∈ [])) as [Hin |]; [by apply elem_of_nil in Hin | done].
  - change (foldl (λ h' k, alter Node.zero k h') h (x :: l))
      with (foldl (λ h' k, alter Node.zero k h') (alter Node.zero x h) l).
    rewrite IH, lookup_alter.
    destruct (decide (n ∈ l)), (decide (x = n)) as [-> |].
    + rewrite decide_True by set_solver. by destruct (h !! n).
    + by rewrite decide_True by set_solver.
    + by rewrite decide_True by set_solver.
    + by rewrite decide_False by set_solver.
Qed.

Lemma lookup_zero_output_schemas h g n :
  _zero_output_schemas h g !! n =
  if decide (n ∈ iter_nodes h [Graph.output_node g])
  then Node.zero <$> h !! n else h !! n.
Proof. apply lookup_foldl_zero. Qed.

(** Zeroing after a fit of an unfitted graph gives back the heap the fit
    started from. *)
Lemma zero_after_fit (o : Order nat) root g st c st' :
  unfitted (nodes st) (Graph.output_node g) →
  fit_loop o (size (initial_schemaless_nodes (nodes st) g)) root
           (initial_schemaless_nodes (nodes st) g) st = Some (c, st') →
  _zero_output_schemas (nodes st') g = nodes st.
Proof.
  intros Hunfitted Hloop.
  destruct (fit_loop_spec o root (nodes st) (Graph.output_node g) _ _ _ _ _
              (loop_inv_init (nodes st) g) Hloop) as (Hstatic & Hsame & _).
  apply map_eq. intros n. rewrite lookup_zero_output_schemas.
  destruct (decide (n ∈ iter_nodes (nodes st') [Graph.output_node g])) as [Hn | Hn].
  - rewrite (Hstatic n).
    destruct (nodes st !! n) as [nd |] eqn:Hnd; [| done]. simpl. f_equal.
    apply elem_of_iter_nodes in Hn.
    apply (same_static_reachable _ (nodes st)) in Hn; [| done].
    destruct (Hunfitted n nd Hn Hnd). by apply zero_unfitted.
  - apply Hsame. intros Hdom. apply Hn, elem_of_iter_nodes.
    apply (same_static_reachable (nodes st)); [by apply same_static_sym |].
    by apply (inv_pending _ _ _ _ (loop_inv_init (nodes st) g)).
Qed.

(** * The claim about fitting again *)

(** C6, as stated, fails: a graph may hold schemas before the first fit (here
    one node that kept the schemas of an earlier fit).  The first fit skips
    that node, zeroing resets it, and the second fit computes its schemas
    from the root schema. *)
Lemma refit_prefitted_differs :
  acyclic Scenario.prefitted 0 ∧
  ¬ refit_agrees (canonical_order nat) (canonical_order nat)
      (canonical_order string) (canonical_order string)
      Scenario.root Scenario.prefitted_graph Scenario.prefitted_state.
Proof.
  split.
  - apply acyclic_iter_nodes. apply (bool_decide_unpack _). by vm_compute.
  - intros (g1 & st1 & g2 & st2 & Hfit1 & Hfit2 & Hnodes & _).
    assert (g1 = Scenario.first_fit.1) as ->
      by (unfold Scenario.first_fit; by rewrite Hfit1).
    assert (st1 = Scenario.first_fit.2) as ->
      by (unfold Scenario.first_fit; by rewrite Hfit1).
    assert (st2 = Scenario.second_fit.2) as ->
      by (unfold Scenario.second_fit; by rewrite Hfit2).
    assert (Scenario.output_column (nodes Scenario.second_fit.2) 0 "x"
            = Scenario.output_column (nodes Scenario.first_fit.2) 0 "x") as Hx.
    { unfold Scenario.output_column.
      assert (∀ h, h !! 0 ≫= Node.output_schema = node_schemas h 0 ≫= snd) as Hsnd.
      { intros h. unfold node_schemas. by destruct (h !! 0). }
      rewrite !Hsnd, Hnodes; [done |].
      apply elem_of_iter_nodes. apply (bool_decide_unpack _). by vm_compute. }
    vm_compute in Hx. discriminate Hx.
Qed.

(** C6, amended.  On an acyclic graph whose reachable nodes all start with
    their schemas unset, fitting, zeroing the schemas and fitting again with
    the same root schema gives every reachable node, and the graph, the
    schemas of the first fit, whatever the order within the phases. *)
Theorem refit_idempotent (o1 o2 : Order nat) (no1 no2 : Order string)
    root g st :
  acyclic (nodes st) (Graph.output_node g) →
  unfitted (nodes st) (Graph.output_node g) →
  refit_agrees o1 o2 no1 no2 root g st.
Proof.
  intros Hacyclic Hunfitted.
  destruct (fit_loop_acyclic o1 root (nodes st) (Graph.output_node g)
              (size (initial_schemaless_nodes (nodes st) g)) Hacyclic
              (initial_schemaless_nodes (nodes st) g) st
              (loop_inv_init (nodes st) g) (reflexivity _)) as [st1 Hloop].
  assert (fit_schema o1 no1 root g st
          = Some (Return (fitted_graph no1 root g (nodes st1)), st1)) as Hfit1.
  { unfold fit_schema. by rewrite Hloop. }
  set (g1 := fitted_graph no1 root g (nodes st1)) in *.
  set (st_zero := {| nodes := _zero_output_schemas (nodes st1) g1;
                     calls := calls st1 |}).
  assert (nodes st_zero = nodes st) as Hzero.
  { simpl. apply (zero_after_fit o1 root g st Normal st1 Hunfitted Hloop). }
  pose proof (fit_schema_observable o2 o1 no2 no1 root g1 g st_zero st Hzero
                eq_refl) as Hobs.
  rewrite Hfit1 in Hobs.
  destruct (fit_schema o2 no2 root g1 st_zero) as [[r2 st2] |] eqn:Hfit2; [| done].
  simpl in Hobs. injection Hobs as -> Hnodes2.
  exists g1, st1, g1, st2.
  split; [done |]. split; [done |]. split; [| done].
  intros n _. by rewrite Hnodes2.
Qed.

(** * The workflow operator *)

(** C8. Against a fitted workflow graph, [compute_output_schema] raises if and
    only if the request schema restricted to the selector differs from the
    graph's input schema; the error carries the column names of the request
    schema and of the graph's input schema; otherwise the workflow's output
    schema is returned; in both cases the operator is left as it was. *)
Theorem compute_output_schema_check self input_schema col_selector
    graph_input_schema :
  Graph.input_schema (Workflow.graph (WorkflowOp.workflow self))
    = Some graph_input_schema →
  ((∃ e, (compute_output_schema self input_schema col_selector).1 = inl e) ↔
   schema_project input_schema (names col_selector) ≠ graph_input_schema) ∧
  (∀ e, (compute_output_schema self input_schema col_selector).1 = inl e →
        e = ValueError (column_names input_schema)
                       (column_names graph_input_schema)) ∧
  (∀ s, (compute_output_schema self input_schema col_selector).1 = inr s →
        s = Workflow.output_schema (WorkflowOp.workflow self)) ∧
  (compute_output_schema self input_schema col_selector).2 = self.
Proof.
  intros Hfitted. unfold compute_output_schema. rewrite Hfitted.
  destruct (decide (schema_project input_schema (names col_selector)
                    = graph_input_schema)) as [Heq | Hne]; simpl.
  - split; [split; [by intros [e ?] | done] |].
    split; [done |]. split; [| done]. by intros s [= <-].
  - split; [split; [done | eauto] |].
    split; [by intros e [= <-] |]. done.
Qed.

Section export_properties.
Context {TritonDataType Config FS : Type}.
Context (_triton_datatype_to_dtype : TritonDataType → DType).
Context (_remove_columns : Workflow.t → list string → Workflow.t).
Context (_generate_nvtabular_config :
           Workflow.t → string → list string → gmap string nat →
           option nat → list string → list string → Config).
Context (mkdir : list string → FS → option FS).
Context (save : Workflow.t → list string → FS → option FS).

Local Abbreviation tf column := (_triton_datatype_to_dtype (data_type column)).
Local Abbreviation step := (reconcile_column _triton_datatype_to_dtype).
Local Abbreviation dtypes acc := (Workflow.output_dtypes acc.1).

Lemma step_lookup acc (x : ModelInput TritonDataType) c :
  dtypes (step acc x) !! c =
  if decide (c = input_name x)
  then (λ _, tf x) <$> dtypes acc !! c
  else dtypes acc !! c.
Proof.
  unfold reconcile_column.
  destruct (dtypes acc !! input_name x) as [d |] eqn:Hd.
  - destruct (decide (d ≠ tf x)) as [Hne | Heq]; simpl.
    + rewrite lookup_insert. destruct (decide (c = input_name x)) as [-> |].
      * rewrite decide_True by done. by rewrite Hd.
      * by rewrite decide_False by done.
    + destruct (decide (c = input_name x)) as [-> |]; [| done].
      rewrite Hd. simpl. f_equal. by destruct (decide (d = tf x)).
  - destruct (decide (c = input_name x)) as [-> |]; [| done]. by rewrite Hd.
Qed.

Lemma step_static acc (x : ModelInput TritonDataType) :
  Workflow.graph (step acc x).1 = Workflow.graph acc.1 ∧
  Workflow.output_schema (step acc x).1 = Workflow.output_schema acc.1.
Proof.
  unfold reconcile_column. destruct (dtypes acc !! input_name x) as [d |]; [| done].
  by destruct (decide (d ≠ tf x)).
Qed.

Lemma step_warnings acc (x : ModelInput TritonDataType) :
  (step acc x).2 = acc.2 ∨
  ∃ d, dtypes acc !! input_name x = Some d ∧ d ≠ tf x ∧
       (step acc x).2 = acc.2 ++ [{| warned_column := input_name x;
                                    expected_dtype := tf x;
                                    produced_dtype := d |}].
Proof.
  unfold reconcile_column. destruct (dtypes acc !! input_name x) as [d |]; [| by left].
  destruct (decide (d ≠ tf x)); [right; eauto | by left].
Qed.

Lemma reconcile_lookup input : ∀ acc c,
  dtypes (foldl step acc input) !! c = dtypes acc !! c ∨
  ∃ column, column ∈ input ∧ input_name column = c ∧
            is_Some (dtypes acc !! c) ∧
            dtypes (foldl step acc input) !! c = Some (tf column).
Proof.
  induction input as [| x l IH]; intros acc c; [by left |].
  change (foldl step acc (x :: l)) with (foldl step (step acc x) l).
  pose proof (step_lookup acc x c) as Hstep.
  destruct (IH (step acc x) c) as [Hsame | (column & Hin & Hname & Hsome & Hfinal)].
  - rewrite Hsame, Hstep. destruct (decide (c = input_name x)) as [-> |]; [| by left].
    destruct (dtypes acc !! input_name x) as [d |] eqn:Hd; [| by left].
    simpl. right. exists x. split; [set_solver |]. split; [done |].
    split; [eauto | done].
  - right. exists column. split; [set_solver |]. split; [done |]. split; [| done].
    rewrite Hstep in Hsome. destruct (decide (c = input_name x)); [| done].
    by apply fmap_is_Some in Hsome.
Qed.

Lemma reconcile_static input : ∀ acc,
  Workflow.graph (foldl step acc input).1 = Workflow.graph acc.1 ∧
  Workflow.output_schema (foldl step acc input).1 = Workflow.output_schema acc.1.
Proof.
  induction input as [| x l IH]; intros acc; [done |].
  change (foldl step acc (x :: l)) with (foldl step (step acc x) l).
  destruct (IH (step acc x)) as [-> ->]. apply step_static.
Qed.

Lemma reconcile_warnings_mono input : ∀ acc w,
  w ∈ acc.2 → w ∈ (foldl step acc input).2.
Proof.
  induction input as [| x l IH]; intros acc w Hw; [done |].
  change (foldl step acc (x :: l)) with (foldl step (step acc x) l).
  apply IH. destruct (step_warnings acc x) as [-> | (d & _ & _ & ->)]; set_solver.
Qed.

Lemma reconcile_warnings input : ∀ acc w,
  w ∈ (foldl step acc input).2 →
  w ∈ acc.2 ∨
  (expected_dtype w ≠ produced_dtype w ∧
   is_Some (dtypes acc !! warned_column w) ∧
   ∃ column, column ∈ input ∧ input_name column = warned_column w ∧
             tf column = expected_dtype w).
Proof.
  induction input as [| x l IH]; intros acc w Hw; [by left |].
  change (foldl step acc (x :: l)) with (foldl step (step acc x) l) in Hw.
  destruct (IH (step acc x) w Hw) as [Hin | (Hne & Hsome & column & Hcol & Hname & Htf)].
  - destruct (step_warnings acc x) as [Heq | (d & Hd & Hne & Heq)];
      rewrite Heq in Hin; [by left |].
    apply elem_of_app in Hin as [? | ->%list_elem_of_singleton]; [by left |].
    right. simpl. split; [done |]. split; [by rewrite Hd |].
    exists x. split; [set_solver | done].
  - right. split; [done |]. split.
    + rewrite step_lookup in Hsome.
      destruct (decide (warned_column w = input_name x)); [| done].
      by apply fmap_is_Some in Hsome.
    + exists column. split; [set_solver | done].
Qed.

Lemma reconcile_final input : ∀ acc column d,
  (∀ c1 c2, c1 ∈ input → c2 ∈ input →
            input_name c1 = input_name c2 → tf c1 = tf c2) →
  column ∈ input → dtypes acc !! input_name column = Some d →
  dtypes (foldl step acc input) !! input_name column = Some (tf column).
Proof.
  induction input as [| x l IH]; intros acc column d Hcons Hin Hd.
  { by apply elem_of_nil in Hin. }
  change (foldl step acc (x :: l)) with (foldl step (step acc x) l).
  assert (dtypes (step acc x) !! input_name column =
          Some (if decide (input_name column = input_name x) then tf x else d))
    as Hstep.
  { rewrite step_lookup, Hd. by destruct (decide _). }
  destruct (reconcile_lookup l (step acc x) (input_name column))
    as [Hsame | (column' & Hin' & Hname & _ & Hfinal)].
  - apply elem_of_cons in Hin as [-> | Hin].
    + rewrite Hsame, Hstep. by rewrite decide_True.
    + eapply IH; [| done | done]. intros c1 c2 ? ?. apply Hcons; set_solver.
  - rewrite Hfinal. f_equal. apply Hcons; [set_solver | done | done].
Qed.

Lemma reconcile_warned input : ∀ acc column d,
  (∀ c1 c2, c1 ∈ input → c2 ∈ input →
            input_name c1 = input_name c2 → tf c1 = tf c2) →
  column ∈ input → dtypes acc !! input_name column = Some d → d ≠ tf column →
  {| warned_column := input_name column; expected_dtype := tf column;
     produced_dtype := d |} ∈ (foldl step acc input).2.
Proof.
  induction input as [| x l IH]; intros acc column d Hcons Hin Hd Hne.
  { by apply elem_of_nil in Hin. }
  change (foldl step acc (x :: l)) with (foldl step (step acc x) l).
  destruct (decide (input_name x = input_name column)) as [Hname | Hname].
  - apply reconcile_warnings_mono.
    assert (tf x = tf column) as Htf by (apply Hcons; set_solver).
    unfold reconcile_column. rewrite Hname, Hd, Htf.
    rewrite decide_True by done. simpl. set_solver.
  - apply elem_of_cons in Hin as [-> | Hin]; [done |].
    eapply IH; [| done | | done].
    + intros c1 c2 ? ?. apply Hcons; set_solver.
    + rewrite step_lookup. by rewrite decide_False.
Qed.
(** C9, amended.  Let the consumer configuration declare one dtype per column
    name.  For every declared column that the workflow produces with another dtype,
    [export] records a warning naming the column and both dtypes, and the
    configuration is generated from a workflow whose output dtype for that
    column is the consumer's.  [export] raises only when the directory cannot
    be created or the workflow cannot be saved; the warnings are not
    errors. *)
Theorem export_overrides_dtypes self path
    (input : list (ModelInput TritonDataType)) version fs :
  (∀ c1 c2, c1 ∈ input → c2 ∈ input →
            input_name c1 = input_name c2 → tf c1 = tf c2) →
  let workflow :=
    _remove_columns (WorkflowOp.workflow self) (WorkflowOp.label_columns self) in
  let reconciled := reconcile _triton_datatype_to_dtype workflow (Some input) in
  let new_dir_path := path ++ [WorkflowOp.export_name self] in
  let export_path := new_dir_path ++ [pretty version; WorkflowOp.export_name self] in
  let exported :=
    export _triton_datatype_to_dtype _remove_columns _generate_nvtabular_config
           mkdir save self path (Some input) version fs in
  (∀ column nvt_dtype,
     column ∈ input →
     Workflow.output_dtypes workflow !! input_name column = Some nvt_dtype →
     nvt_dtype ≠ tf column →
     {| warned_column := input_name column; expected_dtype := tf column;
        produced_dtype := nvt_dtype |} ∈ reconciled.2 ∧
     Workflow.output_dtypes reconciled.1 !! input_name column = Some (tf column)) ∧
  (∀ fs1 fs2,
     mkdir new_dir_path fs = Some fs1 →
     save reconciled.1 export_path fs1 = Some fs2 →
     outcome exported =
       inr (_generate_nvtabular_config reconciled.1
              (WorkflowOp.export_name self) new_dir_path
              (WorkflowOp.sparse_max self) (WorkflowOp.max_batch_size self)
              (WorkflowOp.cats self) (WorkflowOp.conts self)) ∧
     warnings exported = reconciled.2 ∧
     file_system exported = fs2) ∧
  (∀ e, outcome exported = inl e →
        mkdir new_dir_path fs = None ∨
        ∃ fs1, mkdir new_dir_path fs = Some fs1 ∧
               save reconciled.1 export_path fs1 = None).
Proof.
  intros Hcons workflow reconciled new_dir_path export_path exported.
  split; [| split].
  - intros column nvt_dtype Hin Hd Hne. split.
    + by apply reconcile_warned.
    + by eapply reconcile_final.
  - intros fs1 fs2 Hmkdir Hsave. unfold exported, export.
    fold new_dir_path. rewrite Hmkdir. fold workflow. fold reconciled.
    destruct reconciled as [w warned] eqn:Hrec. fold export_path.
    simpl in Hsave. by rewrite Hsave.
  - intros e. unfold exported, export.
    fold new_dir_path. destruct (mkdir new_dir_path fs) as [fs1 |]; [| by left].
    fold workflow. fold reconciled.
    destruct reconciled as [w warned] eqn:Hrec. fold export_path. simpl.
    destruct (save w export_path fs1) as [fs2 |] eqn:Hsave; [done |].
    intros _. right. eauto.
Qed.

(** C10. A consumer column that the workflow does not produce is passed over:
    its name stays absent from the output dtypes and no warning names it.
    The loop changes the dtype of a column only when the workflow produces
    it, the consumer declares it, and the dtype it ends with is a declared
    one that differs from the one the workflow produced; every warning is
    about such a column; the rest of the workflow is untouched. *)
Theorem reconcile_changes_only_mismatches workflow
    (input : list (ModelInput TritonDataType)) :
  (∀ c, Workflow.output_dtypes workflow !! c = None →
        Workflow.output_dtypes
          (reconcile _triton_datatype_to_dtype workflow (Some input)).1 !! c = None ∧
        ∀ w, w ∈ (reconcile _triton_datatype_to_dtype workflow (Some input)).2 →
             warned_column w ≠ c) ∧
  (∀ c, Workflow.output_dtypes
          (reconcile _triton_datatype_to_dtype workflow (Some input)).1 !! c
        ≠ Workflow.output_dtypes workflow !! c →
        ∃ column d,
          column ∈ input ∧ input_name column = c ∧
          Workflow.output_dtypes workflow !! c = Some d ∧
          Workflow.output_dtypes
            (reconcile _triton_datatype_to_dtype workflow (Some input)).1 !! c
          = Some (tf column) ∧
          tf column ≠ d) ∧
  (∀ w, w ∈ (reconcile _triton_datatype_to_dtype workflow (Some input)).2 →
        expected_dtype w ≠ produced_dtype w ∧
        is_Some (Workflow.output_dtypes workflow !! warned_column w) ∧
        ∃ column, column ∈ input ∧ input_name column = warned_column w ∧
                  tf column = expected_dtype w) ∧
  Workflow.graph (reconcile _triton_datatype_to_dtype workflow (Some input)).1
    = Workflow.graph workflow ∧
  Workflow.output_schema (reconcile _triton_datatype_to_dtype workflow (Some input)).1
    = Workflow.output_schema workflow.
Proof.
  unfold reconcile.
  assert (∀ w, w ∈ (foldl step (workflow, []) input).2 →
               expected_dtype w ≠ produced_dtype w ∧
               is_Some (Workflow.output_dtypes workflow !! warned_column w) ∧
               ∃ column, column ∈ input ∧ input_name column = warned_column w ∧
                         tf column = expected_dtype w) as Hwarn.
  { intros w Hw.
    destruct (reconcile_warnings input (workflow, []) w Hw) as [Hnil | ?]; [| done].
    by apply elem_of_nil in Hnil. }
  split; [| split; [| split; [done | apply (reconcile_static input (workflow, []))]]].
  - intros c Hnone. split.
    + destruct (reconcile_lookup input (workflow, []) c)
        as [-> | (_ & _ & _ & Hsome & _)]; [done |].
      simpl in Hsome. rewrite Hnone in Hsome. by destruct Hsome.
    + intros w Hw <-. destruct (Hwarn w Hw) as (_ & Hsome & _).
      rewrite Hnone in Hsome. by destruct Hsome.
  - intros c Hne.
    destruct (reconcile_lookup input (workflow, []) c)
      as [Hsame | (column & Hin & Hname & [d Hd] & Hfinal)]; [done |].
    simpl in Hd. exists column, d. split; [done |]. split; [done |].
    split; [done |]. split; [done |].
    intros Heq. apply Hne. by rewrite Hfinal, Hd, Heq.
Qed.

End export_properties.

(** C9, as stated, fails: the consumer configuration may list a column twice.
    With [age] expected as float32 and then as int32, over a workflow that
    produces [age] as int32, the first entry differs from what the workflow
    produces, but the second entry sets the dtype back: the configuration is
    generated with [age] as int32. *)
Lemma export_duplicate_column_differs :
  ¬ (∀ column nvt_dtype,
       column ∈ duplicate_input →
       Workflow.output_dtypes
         (Scenario.keep_columns (WorkflowOp.workflow Scenario.age_op)
            (WorkflowOp.label_columns Scenario.age_op))
         !! input_name column = Some nvt_dtype →
       nvt_dtype ≠ Scenario.triton_dtype (data_type column) →
       {| warned_column := input_name column;
          expected_dtype := Scenario.triton_dtype (data_type column);
          produced_dtype := nvt_dtype |}
         ∈ (reconcile Scenario.triton_dtype
              (Scenario.keep_columns (WorkflowOp.workflow Scenario.age_op)
                 (WorkflowOp.label_columns Scenario.age_op))
              (Some duplicate_input)).2 ∧
       Workflow.output_dtypes
         (reconcile Scenario.triton_dtype
            (Scenario.keep_columns (WorkflowOp.workflow Scenario.age_op)
               (WorkflowOp.label_columns Scenario.age_op))
            (Some duplicate_input)).1 !! input_name column
       = Some (Scenario.triton_dtype (data_type column))) ∧
  outcome (export Scenario.triton_dtype Scenario.keep_columns
             Scenario.config_dtypes Scenario.make_dir Scenario.save_workflow
             Scenario.age_op ["models"] (Some duplicate_input) 1 [])
  = inr (<["age" := int32]> ∅).
Proof.
  split; [| by vm_compute].
  intros Hclaim.
  destruct (Hclaim {| input_name := "age"; data_type := Scenario.TYPE_FP32 |} int32)
    as [_ Hdtype].
  - apply list_elem_of_here.
  - by vm_compute.
  - by vm_compute.
  - vm_compute in Hdtype. discriminate Hdtype.
Qed.

(** * The theorems at work on concrete graphs *)

(** The chain N1 -> N2 over the root schema {A, B, C}: N1 is computed before
    N2, the graph consumes A and B, and produces what N2 produces. *)
Example chain_outcome :
  fit_schema (canonical_order nat) (canonical_order string)
    Scenario.root Scenario.chain_graph Scenario.chain_state
  = Some (Return Scenario.chain_fit.1, Scenario.chain_fit.2) ∧
  (calls Scenario.chain_fit.2).*1 = [1; 2] ∧
  Graph.input_schema Scenario.chain_fit.1
  = Some (schema_project Scenario.root ["A"; "B"]) ∧
  Graph.output_schema Scenario.chain_fit.1
  = Some (<["total" := Scenario.col int32]>
            (<["doubled" := Scenario.col int32]>
               (<["B" := Scenario.col int32]> ∅))).
Proof. by vm_compute. Qed.

(** Two data-parents produce [x]; the one listed last gives the descriptor. *)
Example two_parents_outcome :
  (calls Scenario.two_parents_fit.2).*1 ≡ₚ [1; 2; 3] ∧
  ∀ arg, (3, arg) ∈ calls Scenario.two_parents_fit.2 →
         arg !! "x" = Some (Scenario.col float32).
Proof.
  split.
  - assert ((calls Scenario.two_parents_fit.2).*1 = [2; 1; 3]) as ->
      by by vm_compute.
    apply perm_swap.
  - intros arg Hin.
    assert (calls Scenario.two_parents_fit.2
            = [(2, Scenario.root); (1, Scenario.root);
               (3, <["x" := Scenario.col float32]> Scenario.root)]) as Hcalls
      by by vm_compute.
    rewrite Hcalls in Hin. apply elem_of_cons in Hin as [? | Hin]; [done |].
    apply elem_of_cons in Hin as [? | Hin]; [done |].
    apply list_elem_of_singleton in Hin as [= ->]. by vm_compute.
Qed.

(** The export of the [age] workflow succeeds, warns once, and generates the
    configuration with [age] as float32. *)
Example age_export_outcome :
  outcome Scenario.age_export = inr (<["age" := float32]> ∅) ∧
  warnings Scenario.age_export
  = [{| warned_column := "age"; expected_dtype := float32;
        produced_dtype := int32 |}].
Proof. by vm_compute. Qed.

Lemma fit_schema_graph_schemas_chain :
  fit_schema (canonical_order nat) (canonical_order string)
    Scenario.root Scenario.chain_graph Scenario.chain_state
  = Some (Return Scenario.chain_fit.1, Scenario.chain_fit.2) ∧
  Graph.output_schema Scenario.chain_fit.1
  = nodes Scenario.chain_fit.2 !! Graph.output_node Scenario.chain_fit.1
      ≫= Node.output_schema ∧
  ∃ s, Graph.input_schema Scenario.chain_fit.1 = Some s ∧
       ∀ c d, s !! c = Some d ↔
              Scenario.root !! c = Some d ∧
              external_input (nodes Scenario.chain_fit.2)
                             (Graph.output_node Scenario.chain_fit.1) c.
Proof.
  assert (fit_schema (canonical_order nat) (canonical_order string)
            Scenario.root Scenario.chain_graph Scenario.chain_state
          = Some (Return Scenario.chain_fit.1, Scenario.chain_fit.2)) as Hfit
    by by vm_compute.
  split; [exact Hfit |].
  exact (fit_schema_graph_schemas _ _ _ _ _ _ _ Hfit).
Defined.

Lemma fit_schema_cycle_raises :
  ∃ st', fit_schema (canonical_order nat) (canonical_order string)
           Scenario.root Scenario.chain_graph Scenario.cycle_state
         = Some (Raise no_phase_msg, st').
Proof.
  apply (proj2 (fit_schema_stuck_raises (canonical_order nat)
                  (canonical_order string) Scenario.root Scenario.chain_graph
                  Scenario.cycle_state) 1).
  - apply elem_of_iter_nodes. apply (bool_decide_unpack _). by vm_compute.
  - by vm_compute.
  - apply elem_of_iter_nodes. apply (bool_decide_unpack _). by vm_compute.
Defined.

Lemma fit_schema_calls_two_parents :
  fit_schema (canonical_order nat) (canonical_order string) Scenario.root
    (Graph.mk 3 None None) {| nodes := Scenario.two_parents; calls := [] |}
  = Some (Return Scenario.two_parents_fit.1, Scenario.two_parents_fit.2) ∧
  ∃ new, calls Scenario.two_parents_fit.2 = [] ++ new ∧
    (∀ sm st_k n,
       rtc (loop_step (canonical_order nat) Scenario.root)
           (initial_schemaless_nodes Scenario.two_parents (Graph.mk 3 None None),
            {| nodes := Scenario.two_parents; calls := [] |}) (sm, st_k) →
       sm ≠ ∅ → n ∈ current_phase (canonical_order nat) sm →
       ∃ arg, (n, arg) ∈ new) ∧
    (∀ g' n,
       Return Scenario.two_parents_fit.1 = Return g' →
       reachable Scenario.two_parents [3] n →
       schemaless Scenario.two_parents n = true →
       ∃ arg, (n, arg) ∈ new) ∧
    ∀ n arg, (n, arg) ∈ new →
      ∃ nd, nodes Scenario.two_parents_fit.2 !! n = Some nd ∧
            computed_with nd arg ∧
            (Node.parents nd = [] → arg = Scenario.root) ∧
            (Node.parents nd ≠ [] →
             arg = schema_merge Scenario.root
                     (foldl schema_merge ∅
                        (omap (λ p, nodes Scenario.two_parents_fit.2 !! p
                                      ≫= Node.output_schema)
                              (Node.parents nd))) ∧
             ∀ c, arg !! c =
                  match latest_producer (nodes Scenario.two_parents_fit.2)
                                        (Node.parents nd) c with
                  | Some d => Some d
                  | None => Scenario.root !! c
                  end).
Proof.
  assert (fit_schema (canonical_order nat) (canonical_order string) Scenario.root
            (Graph.mk 3 None None) {| nodes := Scenario.two_parents; calls := [] |}
          = Some (Return Scenario.two_parents_fit.1, Scenario.two_parents_fit.2))
    as Hfit by by vm_compute.
  split; [exact Hfit |].
  exact (fit_schema_calls _ _ _ _ _ _ _ Hfit).
Defined.

Lemma input_columns_computation_chain :
  fit_schema (canonical_order nat) (canonical_order string)
    Scenario.root Scenario.chain_graph Scenario.chain_state
  = Some (Return Scenario.chain_fit.1, Scenario.chain_fit.2) ∧
  (NoDup (iter_nodes (nodes Scenario.chain_fit.2)
            [Graph.output_node Scenario.chain_graph]) ∧
   ∀ n, n ∈ iter_nodes (nodes Scenario.chain_fit.2)
              [Graph.output_node Scenario.chain_graph] ↔
        reachable (nodes Scenario.chain_fit.2)
                  [Graph.output_node Scenario.chain_graph] n) ∧
  (∀ n c, c ∈ external_cols (canonical_order string) (nodes Scenario.chain_fit.2) n ↔
          ∃ nd, nodes Scenario.chain_fit.2 !! n = Some nd ∧
                c ∈ Node.input_columns nd ∧
                ∀ p, p ∈ Node.parents_with_dependencies nd →
                     c ∉ output_column_names (nodes Scenario.chain_fit.2) p) ∧
  _input_columns (canonical_order string) (nodes Scenario.chain_fit.2)
                 Scenario.chain_graph =
    _get_unique (concat (external_cols (canonical_order string)
                           (nodes Scenario.chain_fit.2)
                           <$> iter_nodes (nodes Scenario.chain_fit.2)
                                 [Graph.output_node Scenario.chain_graph])) ∧
  (∀ l, NoDup (_get_unique l) ∧ ∀ x, x ∈ _get_unique l ↔ x ∈ l) ∧
  (∀ l1 l2, _get_unique (l1 ++ l2) =
            _get_unique l1 ++ filter (λ x, x ∉ l1) (_get_unique l2)) ∧
  Graph.input_schema Scenario.chain_fit.1 =
    Some (filter (λ kv, kv.1 ∈ _input_columns (canonical_order string)
                                 (nodes Scenario.chain_fit.2)
                                 Scenario.chain_graph) Scenario.root).
Proof.
  assert (fit_schema (canonical_order nat) (canonical_order string)
            Scenario.root Scenario.chain_graph Scenario.chain_state
          = Some (Return Scenario.chain_fit.1, Scenario.chain_fit.2)) as Hfit
    by by vm_compute.
  split; [exact Hfit |].
  exact (input_columns_computation _ _ _ _ _ _ _ Hfit).
Defined.

Lemma fit_schema_acyclic_chain :
  acyclic (nodes Scenario.chain_state) (Graph.output_node Scenario.chain_graph) ∧
  ∃ g' st' new,
    fit_schema (canonical_order nat) (canonical_order string)
      Scenario.root Scenario.chain_graph Scenario.chain_state
    = Some (Return g', st') ∧
    calls st' = calls Scenario.chain_state ++ new ∧
    NoDup new.*1 ∧
    ∀ n, (n ∈ new.*1 ↔
          reachable (nodes Scenario.chain_state)
                    [Graph.output_node Scenario.chain_graph] n ∧
          schemaless (nodes Scenario.chain_state) n = true) ∧
         (n ∈ new.*1 →
          ∃ nd, nodes st' !! n = Some nd ∧
                is_Some (Node.input_schema nd) ∧ is_Some (Node.output_schema nd)).
Proof.
  assert (acyclic (nodes Scenario.chain_state)
                  (Graph.output_node Scenario.chain_graph)) as Hacyclic.
  { apply acyclic_iter_nodes. apply (bool_decide_unpack _). by vm_compute. }
  split; [exact Hacyclic |].
  exact (fit_schema_acyclic _ _ _ _ _ Hacyclic).
Defined.

Lemma refit_idempotent_chain :
  acyclic (nodes Scenario.chain_state) (Graph.output_node Scenario.chain_graph) ∧
  unfitted (nodes Scenario.chain_state) (Graph.output_node Scenario.chain_graph) ∧
  refit_agrees (canonical_order nat) (canonical_order nat)
    (canonical_order string) (canonical_order string)
    Scenario.root Scenario.chain_graph Scenario.chain_state.
Proof.
  assert (acyclic (nodes Scenario.chain_state)
                  (Graph.output_node Scenario.chain_graph)) as Hacyclic.
  { apply acyclic_iter_nodes. apply (bool_decide_unpack _). by vm_compute. }
  assert (unfitted (nodes Scenario.chain_state)
                   (Graph.output_node Scenario.chain_graph)) as Hunfitted.
  { apply unfitted_iter_nodes. apply (bool_decide_unpack _). by vm_compute. }
  split; [exact Hacyclic |]. split; [exact Hunfitted |].
  exact (refit_idempotent _ _ _ _ _ _ _ Hacyclic Hunfitted).
Defined.

Lemma compute_output_schema_check_chain :
  Graph.input_schema (Workflow.graph (WorkflowOp.workflow Scenario.chain_op))
  = Some (schema_project Scenario.root ["A"; "B"]) ∧
  ((∃ e, (compute_output_schema Scenario.chain_op Scenario.root
            {| names := ["A"; "C"] |}).1 = inl e) ↔
   schema_project Scenario.root (names {| names := ["A"; "C"] |})
   ≠ schema_project Scenario.root ["A"; "B"]) ∧
  (∀ e, (compute_output_schema Scenario.chain_op Scenario.root
           {| names := ["A"; "C"] |}).1 = inl e →
        e = ValueError (column_names Scenario.root)
                       (column_names (schema_project Scenario.root ["A"; "B"]))) ∧
  (∀ s, (compute_output_schema Scenario.chain_op Scenario.root
           {| names := ["A"; "C"] |}).1 = inr s →
        s = Workflow.output_schema (WorkflowOp.workflow Scenario.chain_op)) ∧
  (compute_output_schema Scenario.chain_op Scenario.root
     {| names := ["A"; "C"] |}).2 = Scenario.chain_op.
Proof.
  assert (Graph.input_schema (Workflow.graph (WorkflowOp.workflow Scenario.chain_op))
          = Some (schema_project Scenario.root ["A"; "B"])) as Hfitted
    by by vm_compute.
  split; [exact Hfitted |].
  exact (compute_output_schema_check Scenario.chain_op Scenario.root
           {| names := ["A"; "C"] |} _ Hfitted).
Defined.

Lemma fit_schema_order_independent_chain :
  prod_map id nodes
    <$> fit_schema (canonical_order nat) (canonical_order string)
          Scenario.root Scenario.chain_graph Scenario.chain_state
  = prod_map id nodes
      <$> fit_schema (canonical_order nat) (canonical_order string)
            Scenario.root Scenario.chain_graph Scenario.chain_state.
Proof.
  exact (fit_schema_order_independent (canonical_order nat) (canonical_order nat)
           (canonical_order string) (canonical_order string)
           Scenario.root Scenario.chain_graph Scenario.chain_state).
Defined.

Lemma export_overrides_dtypes_age :
  (∀ c1 c2 : ModelInput Scenario.TritonType,
     c1 ∈ Scenario.consumer_input → c2 ∈ Scenario.consumer_input →
     input_name c1 = input_name c2 →
     Scenario.triton_dtype (data_type c1) = Scenario.triton_dtype (data_type c2)) ∧
  {| warned_column := "age"; expected_dtype := float32; produced_dtype := int32 |}
    ∈ (reconcile Scenario.triton_dtype Scenario.age_workflow
         (Some Scenario.consumer_input)).2 ∧
  Workflow.output_dtypes
    (reconcile Scenario.triton_dtype Scenario.age_workflow
       (Some Scenario.consumer_input)).1 !! "age" = Some float32 ∧
  outcome Scenario.age_export
  = inr (Workflow.output_dtypes
           (reconcile Scenario.triton_dtype Scenario.age_workflow
              (Some Scenario.consumer_input)).1).
Proof.
  assert (∀ c1 c2 : ModelInput Scenario.TritonType,
            c1 ∈ Scenario.consumer_input → c2 ∈ Scenario.consumer_input →
            input_name c1 = input_name c2 →
            Scenario.triton_dtype (data_type c1)
            = Scenario.triton_dtype (data_type c2)) as Hcons.
  { intros c1 c2 H1 H2.
    apply elem_of_cons in H1 as [-> | H1];
      [| apply list_elem_of_singleton in H1 as ->];
      (apply elem_of_cons in H2 as [-> | H2];
       [| apply list_elem_of_singleton in H2 as ->]); by vm_compute. }
  split; [exact Hcons |].
  destruct (export_overrides_dtypes Scenario.triton_dtype Scenario.keep_columns
              Scenario.config_dtypes Scenario.make_dir Scenario.save_workflow
              Scenario.age_op ["models"] Scenario.consumer_input 1 [] Hcons)
    as (Hwarn & Hok & _).
  destruct (Hwarn {| input_name := "age"; data_type := Scenario.TYPE_FP32 |} int32)
    as [Hwarned Hdtype].
  - apply list_elem_of_here.
  - by vm_compute.
  - by vm_compute.
  - split; [exact Hwarned |]. split; [exact Hdtype |].
    destruct (Hok [["models"; "workflowop"]]
                  [["models"; "workflowop"; "1"; "workflowop"];
                   ["models"; "workflowop"]]) as (Hout & _).
    + by vm_compute.
    + by vm_compute.
    + exact Hout.
Defined.

Lemma reconcile_changes_only_mismatches_age :
  Workflow.output_dtypes
    (reconcile Scenario.triton_dtype Scenario.age_workflow
       (Some Scenario.consumer_input)).1 !! "zip" = None ∧
  ∀ w, w ∈ (reconcile Scenario.triton_dtype Scenario.age_workflow
              (Some Scenario.consumer_input)).2 →
       warned_column w ≠ "zip".
Proof.
  destruct (reconcile_changes_only_mismatches Scenario.triton_dtype
              Scenario.age_workflow Scenario.consumer_input) as (Hignored & _).
  apply (Hignored "zip"). by vm_compute.
Defined.

(** * Further properties of graph.py *)

Lemma fit_loop_calls_order (o : Order nat) root h0 out fuel :
  ∀ sm st c st',
    loop_inv h0 out sm (nodes st) →
    fit_loop o fuel root sm st = Some (c, st') →
    ∃ new, calls st' = calls st ++ new ∧
      NoDup new.*1 ∧
      (∀ n, n ∈ new.*1 → n ∈ dom sm) ∧
      (∀ i n, new.*1 !! i = Some n →
         ∀ m, m ∈ dom sm → ancestors h0 n m →
              ∃ j, j < i ∧ new.*1 !! j = Some m).
Proof.
  assert (∀ st : State, ∃ new : list (nat * Schema),
            calls st = calls st ++ new ∧ NoDup new.*1 ∧
            (∀ n, n ∈ new.*1 → n ∈ dom (∅ : gmap nat (gset nat))) ∧
            (∀ i n, new.*1 !! i = Some n →
               ∀ m, m ∈ dom (∅ : gmap nat (gset nat)) → ancestors h0 n m →
                    ∃ j, j < i ∧ new.*1 !! j = Some m)) as Hdone.
  { intros st. exists []. rewrite app_nil_r. split; [done |].
    split; [constructor |]. split; [by intros n ?%elem_of_nil | done]. }
  induction fuel as [| fuel IH]; intros sm st c st' Hinv Hloop.
  - simpl in Hloop. destruct (decide (sm = ∅)) as [-> |]; [| done].
    injection Hloop as <- <-. apply Hdone.
  - destruct (decide (sm = ∅)) as [-> | Hne].
    { rewrite fit_loop_done in Hloop. injection Hloop as <- <-. apply Hdone. }
    destruct (decide (current_phase o sm = [])) as [Hnil | Hnil].
    { rewrite fit_loop_stuck in Hloop by done. injection Hloop as <- <-.
      exists []. rewrite app_nil_r. split; [done |].
      split; [constructor |]. split; [by intros n ?%elem_of_nil | done]. }
    rewrite fit_loop_phase in Hloop by done.
    set (l := current_phase o sm) in *.
    destruct (foldl_compute_node root l (NoDup_current_phase o sm) st
                (phase_independent o h0 out sm _ Hinv)) as [Hnodes Hcalls].
    assert (loop_inv h0 out (remove_phase l sm)
              (nodes (foldl (compute_node root) st l))) as Hinv'.
    { rewrite Hnodes. by apply loop_inv_step. }
    destruct (IH _ _ _ _ Hinv' Hloop) as (new & Hnew & Hnd & Hdom & Horder).
    assert (∀ n, n ∈ l → n ∈ dom sm) as Hldom.
    { intros n Hn. by apply elem_of_current_phase, phase_set_subseteq in Hn. }
    assert ((phase_calls root (nodes st) l).*1 = l) as Hfst.
    { apply phase_calls_fst. intros n Hn.
      eapply loop_inv_is_Some; [done |]. by apply Hldom. }
    exists (phase_calls root (nodes st) l ++ new).
    split; [by rewrite Hnew, Hcalls, app_assoc |].
    rewrite fmap_app, Hfst.
    split; [| split].
    + apply NoDup_app. split; [apply NoDup_current_phase |]. split; [| done].
      intros n Hn Hn'. apply Hdom in Hn'. rewrite dom_remove_phase in Hn'.
      set_solver.
    + intros n [Hn | Hn]%elem_of_app; [by apply Hldom |].
      apply Hdom in Hn. rewrite dom_remove_phase in Hn. set_solver.
    + intros i n Hi m Hm Hanc.
      destruct (decide (i < length l)) as [Hlt | Hge].
      * exfalso. rewrite lookup_app_l in Hi by done.
        apply list_elem_of_lookup_2 in Hi.
        apply elem_of_current_phase, elem_of_phase_set in Hi.
        pose proof (proj2 (inv_blocking _ _ _ _ Hinv n ∅ Hi m) (conj Hm Hanc)).
        set_solver.
      * rewrite lookup_app_r in Hi by lia.
        destruct (decide (m ∈ l)) as [Hml | Hml].
        -- apply list_elem_of_lookup_1 in Hml as [j Hj].
           exists j. split.
           ++ apply lookup_lt_Some in Hj. lia.
           ++ rewrite lookup_app_l; [done |]. by apply lookup_lt_Some in Hj.
        -- destruct (Horder _ _ Hi m) as (j & Hj & Hjm); [| done |].
           { rewrite dom_remove_phase. set_solver. }
           exists (length l + j). split; [lia |].
           rewrite lookup_app_r by lia.
           by replace (length l + j - length l) with j by lia.
Qed.

Lemma unblocked_phase h0 out sm h :
  loop_inv h0 out sm h → (∀ n, n ∈ dom sm → ¬ ancestors h0 n n) →
  sm ≠ ∅ → phase_set sm ≠ ∅.
Proof.
  intros [Hstatic Hpending Hblocking] Hfree Hne.
  assert (∀ k n deps, sm !! n = Some deps → size deps ≤ k →
                      ∃ n', sm !! n' = Some ∅) as Hmin.
  { induction k as [| k IH]; intros n deps Hn Hsize.
    - assert (deps = ∅) as -> by (apply leibniz_equiv, size_empty_iff; lia). eauto.
    - destruct (decide (deps = ∅)) as [-> | Hdeps]; [eauto |].
      apply set_choose_L in Hdeps as [m Hm].
      destruct (proj1 (Hblocking n deps Hn m) Hm) as [Hmdom Hanc].
      apply elem_of_dom in Hmdom as Hlook. destruct Hlook as [deps' Hm'].
      apply (IH m deps' Hm').
      assert (deps' ⊂ deps) as Hsub%subset_size; [| lia].
      split.
      + intros k' Hk'. apply (Hblocking n deps Hn).
        destruct (proj1 (Hblocking m deps' Hm' k') Hk') as [? Hanc'].
        split; [done |]. by eapply ancestors_trans.
      + intros Hsub. specialize (Hsub m Hm).
        destruct (proj1 (Hblocking m deps' Hm' m) Hsub) as [_ Hself].
        by apply (Hfree m Hmdom). }
  apply map_choose in Hne as (n & deps & Hn).
  destruct (Hmin (size deps) n deps Hn) as [n' Hn']; [done |].
  apply elem_of_phase_set in Hn'. set_solver.
Qed.

Lemma fit_loop_unblocked (o : Order nat) root h0 out fuel :
  ∀ sm st, loop_inv h0 out sm (nodes st) →
           (∀ n, n ∈ dom sm → ¬ ancestors h0 n n) → size sm ≤ fuel →
           ∃ st', fit_loop o fuel root sm st = Some (Normal, st').
Proof.
  induction fuel as [| fuel IH]; intros sm st Hinv Hfree Hsize.
  - assert (sm = ∅) as -> by (apply map_size_empty_iff; lia). by eexists.
  - destruct (decide (sm = ∅)) as [-> | Hne]; [rewrite fit_loop_done; by eexists |].
    pose proof (unblocked_phase h0 out sm _ Hinv Hfree Hne) as Hphase.
    rewrite <-(current_phase_nil o) in Hphase.
    rewrite fit_loop_phase by done.
    destruct (foldl_compute_node root _ (NoDup_current_phase o sm) st
                (phase_independent o h0 out sm _ Hinv)) as [Hnodes _].
    apply IH.
    + rewrite Hnodes. by apply loop_inv_step.
    + intros n Hn. apply Hfree. rewrite dom_remove_phase in Hn. set_solver.
    + destruct (current_phase o sm) as [| x l] eqn:Hl; [done |].
      assert (x ∈ current_phase o sm) as Hx by (rewrite Hl; set_solver).
      apply elem_of_current_phase, phase_set_subseteq in Hx.
      pose proof (size_remove_phase (x :: l) sm x).
      assert (x ∈ x :: l) by set_solver. naive_solver lia.
Qed.

Lemma elem_of_dom_initial h g n :
  n ∈ dom (initial_schemaless_nodes h g) ↔
  reachable h [Graph.output_node g] n ∧ schemaless h n = true.
Proof.
  rewrite elem_of_dom. unfold is_Some.
  setoid_rewrite lookup_initial_schemaless_nodes.
  rewrite <-elem_of_get_schemaless_nodes. naive_solver.
Qed.

Lemma schemaless_false_computed h n nd arg :
  h !! n = Some nd → computed_with nd arg → schemaless h n = false.
Proof. intros Hn [Hin _]. unfold schemaless. by rewrite Hn, Hin. Qed.

Lemma fit_loop_none_schemaless (o : Order nat) root g st st' :
  fit_loop o (size (initial_schemaless_nodes (nodes st) g)) root
           (initial_schemaless_nodes (nodes st) g) st = Some (Normal, st') →
  _get_schemaless_nodes (nodes st') [Graph.output_node g] = ∅.
Proof.
  intros Hloop.
  destruct (fit_loop_spec o root (nodes st) (Graph.output_node g) _ _ _ _ _
              (loop_inv_init (nodes st) g) Hloop)
    as (Hstatic & Hsame & new & Hnew & Hargs & Hperm).
  specialize (Hperm eq_refl).
  apply set_eq. intros n. split; [| set_solver].
  intros [Hreach Hless]%elem_of_get_schemaless_nodes. exfalso.
  apply (same_static_reachable _ (nodes st)) in Hreach; [| done].
  destruct (decide (n ∈ dom (initial_schemaless_nodes (nodes st) g))) as [Hn | Hn].
  - apply elem_of_elements in Hn. rewrite <-Hperm in Hn.
    apply list_elem_of_fmap in Hn as ([n' arg] & -> & Hin). simpl in *.
    destruct (Hargs n' arg Hin) as (_ & nd & Hnd & _ & Hcomputed).
    by rewrite (schemaless_false_computed _ _ _ _ Hnd Hcomputed) in Hless.
  - assert (schemaless (nodes st') n = schemaless (nodes st) n) as Heq.
    { unfold schemaless. by rewrite (Hsame n Hn). }
    rewrite Heq in Hless. apply Hn, elem_of_dom_initial. done.
Qed.

(** X1. When [fit_schema] returns, [_get_schemaless_nodes] finds no node from
    the output node any more: every reachable node has an input schema. *)
Theorem fit_schema_leaves_none_schemaless (o : Order nat) (no : Order string)
    root g st g' st' :
  fit_schema o no root g st = Some (Return g', st') →
  _get_schemaless_nodes (nodes st') [Graph.output_node g] = ∅.
Proof.
  intros (c & Hloop & Hr)%fit_schema_inv.
  destruct c as [| msg]; [| done]. by eapply fit_loop_none_schemaless.
Qed.

Lemma fit_schema_leaves_none_schemaless_chain :
  fit_schema (canonical_order nat) (canonical_order string)
    Scenario.root Scenario.chain_graph Scenario.chain_state
  = Some (Return Scenario.chain_fit.1, Scenario.chain_fit.2) ∧
  _get_schemaless_nodes (nodes Scenario.chain_fit.2)
    [Graph.output_node Scenario.chain_graph] = ∅.
Proof.
  assert (fit_schema (canonical_order nat) (canonical_order string)
            Scenario.root Scenario.chain_graph Scenario.chain_state
          = Some (Return Scenario.chain_fit.1, Scenario.chain_fit.2)) as Hfit
    by by vm_compute.
  split; [exact Hfit |].
  exact (fit_schema_leaves_none_schemaless _ _ _ _ _ _ _ Hfit).
Defined.

Lemma initial_schemaless_nodes_empty h g :
  _get_schemaless_nodes h [Graph.output_node g] = ∅ →
  initial_schemaless_nodes h g = ∅.
Proof.
  intros Hempty. apply map_empty. intros n.
  destruct (initial_schemaless_nodes h g !! n) as [deps |] eqn:Hn; [| done].
  apply lookup_initial_schemaless_nodes in Hn as [Hn _]. set_solver.
Qed.

(** X2. A second [fit_schema] on the graph a first one returned computes
    nothing: whatever the root schema it is given, it returns and leaves the
    nodes and the record of calls as they are; with the root schema of the
    first fit it returns the same graph. *)
Theorem fit_schema_again (o : Order nat) (no : Order string) root g st g1 st1 :
  fit_schema o no root g st = Some (Return g1, st1) →
  (∀ (o' : Order nat) (no' : Order string) root',
     fit_schema o' no' root' g1 st1
     = Some (Return (fitted_graph no' root' g1 (nodes st1)), st1)) ∧
  (∀ (o' : Order nat) (no' : Order string),
     fit_schema o' no' root g1 st1 = Some (Return g1, st1)).
Proof.
  intros (c & Hloop & Hr)%fit_schema_inv.
  destruct c as [| msg]; [| done]. injection Hr as ->.
  pose proof (fit_loop_none_schemaless o root g st st1 Hloop) as Hnone.
  assert (∀ (o' : Order nat) (no' : Order string) root',
            fit_schema o' no' root' (fitted_graph no root g (nodes st1)) st1
            = Some (Return (fitted_graph no' root'
                              (fitted_graph no root g (nodes st1)) (nodes st1)),
                    st1)) as Hagain.
  { intros o' no' root'. unfold fit_schema.
    rewrite (initial_schemaless_nodes_empty (nodes st1)) by done.
    by rewrite fit_loop_done. }
  split; [done |].
  intros o' no'. rewrite Hagain. do 3 f_equal.
  unfold fitted_graph. simpl. do 2 f_equal.
  apply map_filter_ext. intros c d _. simpl.
  by rewrite !elem_of_input_columns.
Qed.

Lemma fit_schema_again_chain :
  fit_schema (canonical_order nat) (canonical_order string)
    Scenario.root Scenario.chain_graph Scenario.chain_state
  = Some (Return Scenario.chain_fit.1, Scenario.chain_fit.2) ∧
  fit_schema (canonical_order nat) (canonical_order string)
    Scenario.root Scenario.chain_fit.1 Scenario.chain_fit.2
  = Some (Return Scenario.chain_fit.1, Scenario.chain_fit.2).
Proof.
  assert (fit_schema (canonical_order nat) (canonical_order string)
            Scenario.root Scenario.chain_graph Scenario.chain_state
          = Some (Return Scenario.chain_fit.1, Scenario.chain_fit.2)) as Hfit
    by by vm_compute.
  split; [exact Hfit |].
  exact (proj2 (fit_schema_again _ _ _ _ _ _ _ Hfit)
           (canonical_order nat) (canonical_order string)).
Defined.

(** X3. Whether it returns or raises, [fit_schema] adds and removes no node,
    changes no node's operator, parents, dependencies or declared columns, and
    leaves untouched every node that is not reachable from the output node or
    that already had an input schema. *)
Theorem fit_schema_frame (o : Order nat) (no : Order string) root g st r st' :
  fit_schema o no root g st = Some (r, st') →
  same_static (nodes st') (nodes st) ∧
  ∀ n, ¬ (reachable (nodes st) [Graph.output_node g] n ∧
          schemaless (nodes st) n = true) →
       nodes st' !! n = nodes st !! n.
Proof.
  intros (c & Hloop & _)%fit_schema_inv.
  destruct (fit_loop_spec o root (nodes st) (Graph.output_node g) _ _ _ _ _
              (loop_inv_init (nodes st) g) Hloop) as (Hstatic & Hsame & _).
  split; [done |]. intros n Hn. apply Hsame.
  by rewrite elem_of_dom_initial.
Qed.

Lemma fit_schema_frame_cycle :
  fit_schema (canonical_order nat) (canonical_order string)
    Scenario.root Scenario.chain_graph Scenario.cycle_state
  = Some (cycle_fit.1, cycle_fit.2) ∧
  same_static (nodes cycle_fit.2) (nodes Scenario.cycle_state) ∧
  ∀ n, ¬ (reachable (nodes Scenario.cycle_state)
                    [Graph.output_node Scenario.chain_graph] n ∧
          schemaless (nodes Scenario.cycle_state) n = true) →
       nodes cycle_fit.2 !! n = nodes Scenario.cycle_state !! n.
Proof.
  assert (fit_schema (canonical_order nat) (canonical_order string)
            Scenario.root Scenario.chain_graph Scenario.cycle_state
          = Some (cycle_fit.1, cycle_fit.2)) as Hfit by by vm_compute.
  split; [exact Hfit |].
  exact (fit_schema_frame _ _ _ _ _ _ _ Hfit).
Defined.

(** X4. On every graph, cyclic or not, [fit_schema] comes to an end, with a
    graph or with the error; by then [compute_schemas] has been called at
    most once per node, and only on nodes reachable from the output node
    that had no input schema. *)
Theorem fit_schema_at_most_once (o : Order nat) (no : Order string) root g st :
  ∃ r st' new,
    fit_schema o no root g st = Some (r, st') ∧
    calls st' = calls st ++ new ∧
    NoDup new.*1 ∧
    (∀ n, n ∈ new.*1 →
          reachable (nodes st) [Graph.output_node g] n ∧
          schemaless (nodes st) n = true) ∧
    length new ≤ size (_get_schemaless_nodes (nodes st) [Graph.output_node g]).
Proof.
  destruct (fit_schema_total o no root g st) as [[r st'] Hfit].
  pose proof Hfit as (c & Hloop & _)%fit_schema_inv.
  destruct (fit_loop_calls_order o root (nodes st) (Graph.output_node g) _ _ _ _ _
              (loop_inv_init (nodes st) g) Hloop)
    as (new & Hnew & Hnd & Hdom & _).
  exists r, st', new. split; [done |]. split; [done |]. split; [done |].
  split; [intros n Hn; by apply elem_of_dom_initial, Hdom |].
  rewrite <-(length_fmap fst new).
  unfold size, set_size. simpl.
  apply submseteq_length, NoDup_submseteq; [done |].
  intros n Hn. apply elem_of_elements, elem_of_get_schemaless_nodes.
  by apply elem_of_dom_initial, Hdom.
Qed.

(** X5. [compute_schemas] is called on a node only after it has been called on
    every parent and dependency of the node, direct or not, that was waiting
    for a schema. *)
Theorem fit_schema_parents_first (o : Order nat) (no : Order string)
    root g st r st' :
  fit_schema o no root g st = Some (r, st') →
  ∃ new, calls st' = calls st ++ new ∧
    ∀ i n, new.*1 !! i = Some n →
      ∀ m, reachable (nodes st) [Graph.output_node g] m →
           schemaless (nodes st) m = true →
           ancestors (nodes st) n m →
           ∃ j, j < i ∧ new.*1 !! j = Some m.
Proof.
  intros (c & Hloop & _)%fit_schema_inv.
  destruct (fit_loop_calls_order o root (nodes st) (Graph.output_node g) _ _ _ _ _
              (loop_inv_init (nodes st) g) Hloop)
    as (new & Hnew & _ & _ & Horder).
  exists new. split; [done |]. intros i n Hi m Hreach Hless Hanc.
  apply (Horder i n Hi m); [| done]. by apply elem_of_dom_initial.
Qed.

Lemma fit_schema_parents_first_chain :
  fit_schema (canonical_order nat) (canonical_order string)
    Scenario.root Scenario.chain_graph Scenario.chain_state
  = Some (Return Scenario.chain_fit.1, Scenario.chain_fit.2) ∧
  ∃ new, calls Scenario.chain_fit.2 = calls Scenario.chain_state ++ new ∧
    ∀ i n, new.*1 !! i = Some n →
      ∀ m, reachable (nodes Scenario.chain_state)
                     [Graph.output_node Scenario.chain_graph] m →
           schemaless (nodes Scenario.chain_state) m = true →
           ancestors (nodes Scenario.chain_state) n m →
           ∃ j, j < i ∧ new.*1 !! j = Some m.
Proof.
  assert (fit_schema (canonical_order nat) (canonical_order string)
            Scenario.root Scenario.chain_graph Scenario.chain_state
          = Some (Return Scenario.chain_fit.1, Scenario.chain_fit.2)) as Hfit
    by by vm_compute.
  split; [exact Hfit |].
  exact (fit_schema_parents_first _ _ _ _ _ _ _ Hfit).
Defined.

(** X6. [fit_schema] raises exactly when some node reachable from the output
    node has no input schema and is among its own ancestors, and it returns
    exactly when there is no such node: one of the two always happens.  The
    other nodes of such a cycle may well have schemas. *)
Theorem fit_schema_raises_iff (o : Order nat) (no : Order string) root g st :
  ((∃ msg st', fit_schema o no root g st = Some (Raise msg, st')) ↔
   ∃ c, self_blocked (nodes st) (Graph.output_node g) c) ∧
  ((∃ g' st', fit_schema o no root g st = Some (Return g', st')) ↔
   ¬ ∃ c, self_blocked (nodes st) (Graph.output_node g) c) ∧
  (((∃ c, self_blocked (nodes st) (Graph.output_node g) c) ∧
    ∃ st', fit_schema o no root g st = Some (Raise no_phase_msg, st')) ∨
   ((¬ ∃ c, self_blocked (nodes st) (Graph.output_node g) c) ∧
    ∃ st', fit_schema o no root g st
           = Some (Return (fitted_graph no root g (nodes st')), st'))).
Proof.
  assert (((∃ c, self_blocked (nodes st) (Graph.output_node g) c) ∧
           ∃ st', fit_schema o no root g st = Some (Raise no_phase_msg, st')) ∨
          ((¬ ∃ c, self_blocked (nodes st) (Graph.output_node g) c) ∧
           ∃ st', fit_schema o no root g st
                  = Some (Return (fitted_graph no root g (nodes st')), st')))
    as Hcases.
  { destruct (decide (Exists (λ c, c ∈ iter_nodes (nodes st) (node_pwd (nodes st) c))
                        (elements (dom (initial_schemaless_nodes (nodes st) g)))))
      as [Hex | Hall].
    - left. apply Exists_exists in Hex as (c & Hc & Hcycle).
      apply elem_of_elements in Hc. apply elem_of_iter_nodes in Hcycle.
      split.
      + exists c. apply elem_of_dom_initial in Hc as [Hreach Hless]. done.
      + destruct (fit_loop_cycle o root (nodes st) (Graph.output_node g) c
                    (size (initial_schemaless_nodes (nodes st) g)) Hcycle
                    (initial_schemaless_nodes (nodes st) g) st
                    (loop_inv_init (nodes st) g) Hc (reflexivity _)) as [st' Hloop].
        exists st'. unfold fit_schema. by rewrite Hloop.
    - right. split.
      + intros (c & Hreach & Hless & Hcycle). apply Hall, Exists_exists.
        exists c. split; [| by apply elem_of_iter_nodes].
        by apply elem_of_elements, elem_of_dom_initial.
      + destruct (fit_loop_unblocked o root (nodes st) (Graph.output_node g)
                    (size (initial_schemaless_nodes (nodes st) g))
                    (initial_schemaless_nodes (nodes st) g) st
                    (loop_inv_init (nodes st) g)) as [st1 Hloop]; [| done |].
        * intros n Hn Hanc. apply Hall, Exists_exists. exists n.
          split; [by apply elem_of_elements | by apply elem_of_iter_nodes].
        * exists st1. unfold fit_schema. by rewrite Hloop. }
  split; [| split; [| done]].
  - split.
    + intros (msg & st' & Hfit).
      destruct Hcases as [[Hblocked _] | [_ [st1 Hret]]]; [done |].
      rewrite Hret in Hfit. discriminate Hfit.
    + intros Hblocked.
      destruct Hcases as [[_ [st' Hraise]] | [Hfree _]]; [eauto | done].
  - split.
    + intros (g' & st' & Hfit) Hblocked.
      destruct Hcases as [[_ [st1 Hraise]] | [Hfree _]]; [| done].
      rewrite Hraise in Hfit. discriminate Hfit.
    + intros Hfree.
      destruct Hcases as [[Hblocked _] | [_ [st' Hret]]]; [done | eauto].
Qed.

Lemma same_static_zero_output_schemas h g : same_static (_zero_output_schemas h g) h.
Proof.
  intros n. rewrite lookup_zero_output_schemas.
  destruct (decide _); [| done]. by destruct (h !! n).
Qed.

(** X7. [_zero_output_schemas] unsets both schemas of every node reachable
    from the output node and touches nothing else: the graph keeps its shape,
    the other nodes keep their schemas, a second call changes nothing, and
    afterwards [_get_schemaless_nodes] finds every reachable node. *)
Theorem zero_output_schemas_resets h g :
  same_static (_zero_output_schemas h g) h ∧
  unfitted (_zero_output_schemas h g) (Graph.output_node g) ∧
  (∀ n, ¬ reachable h [Graph.output_node g] n →
        _zero_output_schemas h g !! n = h !! n) ∧
  _zero_output_schemas (_zero_output_schemas h g) g = _zero_output_schemas h g ∧
  _get_schemaless_nodes (_zero_output_schemas h g) [Graph.output_node g]
  = list_to_set (iter_nodes h [Graph.output_node g]).
Proof.
  pose proof (same_static_zero_output_schemas h g) as Hstatic.
  assert (∀ n, n ∈ iter_nodes h [Graph.output_node g] →
               _zero_output_schemas h g !! n = Node.zero <$> h !! n) as Hin.
  { intros n Hn. rewrite lookup_zero_output_schemas. by rewrite decide_True. }
  split; [done |]. split; [| split; [| split]].
  - intros n nd' Hreach Hnd'.
    apply (same_static_reachable _ h) in Hreach; [| done].
    apply elem_of_iter_nodes in Hreach. rewrite Hin in Hnd' by done.
    destruct (h !! n) as [nd |]; [| done]. simpl in Hnd'. by injection Hnd' as <-.
  - intros n Hn. rewrite lookup_zero_output_schemas.
    rewrite decide_False; [done |]. by rewrite elem_of_iter_nodes.
  - apply map_eq. intros n.
    rewrite (lookup_zero_output_schemas (_zero_output_schemas h g)).
    rewrite (same_static_iter_nodes _ h) by done.
    destruct (decide (n ∈ iter_nodes h [Graph.output_node g])) as [Hn |]; [| done].
    rewrite Hin by done. by destruct (h !! n).
  - apply set_eq. intros n.
    rewrite elem_of_get_schemaless_nodes, elem_of_list_to_set, elem_of_iter_nodes.
    split.
    + intros [Hreach _]. by apply (same_static_reachable _ h) in Hreach.
    + intros Hreach. split.
      * apply (same_static_reachable h); [by apply same_static_sym | done].
      * unfold schemaless. rewrite Hin by by apply elem_of_iter_nodes.
        destruct Hreach as [[nd ->] _]. done.
Qed.

Lemma add_keys_NoDup cols : ∀ ks, NoDup (ks ++ cols) → add_keys ks cols = ks ++ cols.
Proof.
  induction cols as [| y cols IH]; intros ks Hnd.
  - simpl. by rewrite app_nil_r.
  - change (add_keys ks (y :: cols))
      with (add_keys (if decide (y ∈ ks) then ks else ks ++ [y]) cols).
    apply NoDup_app in Hnd as Hparts. destruct Hparts as (_ & Hdisj & _).
    rewrite decide_False by (intros Hy; apply (Hdisj y Hy); set_solver).
    rewrite IH; [by rewrite <-app_assoc |]. by rewrite <-app_assoc.
Qed.

Lemma length_add_keys cols : ∀ ks, length (add_keys ks cols) ≤ length ks + length cols.
Proof.
  induction cols as [| y cols IH]; intros ks; [simpl; lia |].
  change (add_keys ks (y :: cols))
    with (add_keys (if decide (y ∈ ks) then ks else ks ++ [y]) cols).
  etrans; [apply IH |]. destruct (decide (y ∈ ks)); simpl; [lia |].
  rewrite length_app. simpl. lia.
Qed.

(** X8. [_get_unique] returns a list unchanged exactly when the list has no
    duplicates; applying it twice is the same as applying it once, and its
    result is never longer than its argument. *)
Theorem get_unique_fixpoint cols :
  (_get_unique cols = cols ↔ NoDup cols) ∧
  _get_unique (_get_unique cols) = _get_unique cols ∧
  length (_get_unique cols) ≤ length cols.
Proof.
  assert (∀ l, NoDup l → _get_unique l = l) as Hid.
  { intros l Hl. rewrite get_unique_add_keys. by apply (add_keys_NoDup l []). }
  split; [split |]; [| apply Hid | split].
  - intros <-. apply NoDup_get_unique.
  - apply Hid, NoDup_get_unique.
  - rewrite get_unique_add_keys. apply (length_add_keys cols []).
Qed.

Lemma same_static_op h h' n nd nd' :
  same_static h h' → h !! n = Some nd → h' !! n = Some nd' →
  Node.op nd = Node.op nd'.
Proof.
  intros Hs Hn Hn'. specialize (Hs n). rewrite Hn, Hn' in Hs.
  simpl in Hs. apply (inj Some) in Hs. unfold Node.zero in Hs. by injection Hs.
Qed.

Lemma get_ops_by_type_static {OpType : Type}
    (isinstance : (Schema → Schema * Schema) → OpType → bool)
    h h' l (t : OpType) :
  same_static h h' →
  _get_ops_by_type isinstance h l t = _get_ops_by_type isinstance h' l t.
Proof.
  intros Hs. unfold _get_ops_by_type.
  rewrite (same_static_iter_nodes h h') by done. f_equal.
  apply list_filter_iff. intros n. unfold has_op_type.
  pose proof (Hs n) as Hn.
  destruct (h !! n) as [nd |] eqn:Hnd, (h' !! n) as [nd' |] eqn:Hnd'; try done.
  by rewrite (same_static_op h h' n nd nd').
Qed.

(** X9. [_get_ops_by_type] returns exactly the nodes reached from the given
    nodes whose operator is of the given type; the schemas play no part, so
    the result is the same after [_zero_output_schemas] and after
    [fit_schema]. *)
Theorem get_ops_by_type_spec {OpType : Type}
    (isinstance : (Schema → Schema * Schema) → OpType → bool)
    h l (t : OpType) :
  (∀ n, n ∈ _get_ops_by_type isinstance h l t ↔
        reachable h l n ∧
        ∃ nd, h !! n = Some nd ∧ isinstance (Node.op nd) t = true) ∧
  (∀ g, _get_ops_by_type isinstance (_zero_output_schemas h g) l t
        = _get_ops_by_type isinstance h l t) ∧
  (∀ (o : Order nat) (no : Order string) root g st r st',
     nodes st = h →
     fit_schema o no root g st = Some (r, st') →
     _get_ops_by_type isinstance (nodes st') l t
     = _get_ops_by_type isinstance h l t).
Proof.
  split; [| split].
  - intros n. unfold _get_ops_by_type.
    rewrite elem_of_list_to_set, list_elem_of_filter, elem_of_iter_nodes.
    unfold has_op_type. rewrite Is_true_true.
    destruct (h !! n) as [nd |]; naive_solver.
  - intros g. apply get_ops_by_type_static, same_static_zero_output_schemas.
  - intros o no root g st r st' <- (c & Hloop & _)%fit_schema_inv.
    destruct (fit_loop_spec o root (nodes st) (Graph.output_node g) _ _ _ _ _
                (loop_inv_init (nodes st) g) Hloop) as (Hstatic & _).
    by apply get_ops_by_type_static.
Qed.

(** * Further properties of workflow.py *)

Lemma schema_project_eq (req gs : Schema) (l : list string) :
  schema_project req l = gs ↔
  gs ⊆ req ∧ ∀ c, is_Some (req !! c) → (c ∈ l ↔ is_Some (gs !! c)).
Proof.
  unfold schema_project. split.
  - intros <-. split; [apply map_filter_subseteq |].
    intros c [d Hd]. split.
    + intros Hc. exists d. by apply map_lookup_filter_Some.
    + intros [d' Hd']. by apply map_lookup_filter_Some in Hd' as [_ ?].
  - intros [Hsub Hsel]. apply map_eq. intros c.
    pose proof (proj1 (map_subseteq_spec gs req) Hsub c) as Hweaken.
    destruct (gs !! c) as [d |] eqn:Hgs.
    + apply map_lookup_filter_Some. split; [by apply Hweaken |]. simpl.
      apply Hsel; [| done]. exists d. by apply Hweaken.
    + apply map_lookup_filter_None. right. intros d Hd Hc. simpl in Hc.
      destruct (proj1 (Hsel c (mk_is_Some _ _ Hd)) Hc) as [d' Hd'].
      rewrite Hgs in Hd'. discriminate Hd'.
Qed.

(** X10. [compute_output_schema] returns a schema exactly when the graph has
    an input schema, every column of that schema is in the request schema
    with the same descriptor, and the selector picks, among the columns of
    the request, exactly the columns of the graph's input schema.  Request
    columns outside the selector, and selector names that the request does
    not have, do not matter. *)
Theorem compute_output_schema_accepts self (input_schema : Schema) col_selector :
  (∃ s, (compute_output_schema self input_schema col_selector).1 = inr s) ↔
  ∃ graph_input_schema,
    Graph.input_schema (Workflow.graph (WorkflowOp.workflow self))
    = Some graph_input_schema ∧
    graph_input_schema ⊆ input_schema ∧
    ∀ c, is_Some (input_schema !! c) →
         (c ∈ names col_selector ↔ is_Some (graph_input_schema !! c)).
Proof.
  unfold compute_output_schema.
  destruct (Graph.input_schema (Workflow.graph (WorkflowOp.workflow self)))
    as [gs |].
  - destruct (decide (schema_project input_schema (names col_selector) = gs))
      as [Heq | Hne]; simpl.
    + split; [| eauto]. intros _. exists gs. split; [done |].
      by apply schema_project_eq.
    + split; [by intros [s ?] |]. intros (gs' & [= <-] & Hsub & Hsel).
      exfalso. apply Hne. by apply schema_project_eq.
  - simpl. split; [by intros [s ?] | by intros (gs' & ? & _)].
Qed.

Section export_further.
Context {TritonDataType Config FS : Type}.
Context (_triton_datatype_to_dtype : TritonDataType → DType).
Context (_remove_columns : Workflow.t → list string → Workflow.t).
Context (_generate_nvtabular_config :
           Workflow.t → string → list string → gmap string nat →
           option nat → list string → list string → Config).
Context (mkdir : list string → FS → option FS).
Context (save : Workflow.t → list string → FS → option FS).

Local Abbreviation tf column := (_triton_datatype_to_dtype (data_type column)).
Local Abbreviation step := (reconcile_column _triton_datatype_to_dtype).
Local Abbreviation dtypes acc := (Workflow.output_dtypes acc.1).

Lemma reconcile_settled (input : list (ModelInput TritonDataType)) acc :
  (∀ column d, column ∈ input → dtypes acc !! input_name column = Some d →
               d = tf column) →
  foldl step acc input = acc.
Proof.
  induction input as [| x l IH]; intros Hsettled; [done |].
  change (foldl step acc (x :: l)) with (foldl step (step acc x) l).
  assert (step acc x = acc) as ->.
  { unfold reconcile_column.
    destruct (dtypes acc !! input_name x) as [d |] eqn:Hd; [| done].
    rewrite decide_False; [done |]. intros Hne. apply Hne.
    apply (Hsettled x d); [set_solver | done]. }
  apply IH. intros column d Hin. apply Hsettled. set_solver.
Qed.

Lemma length_reconcile_warnings (input : list (ModelInput TritonDataType)) :
  ∀ acc, length (foldl step acc input).2 ≤ length acc.2 + length input.
Proof.
  induction input as [| x l IH]; intros acc; [simpl; lia |].
  change (foldl step acc (x :: l)) with (foldl step (step acc x) l).
  etrans; [apply IH |].
  destruct (step_warnings _triton_datatype_to_dtype acc x)
    as [-> | (d & _ & _ & ->)]; [simpl; lia |].
  rewrite length_app. simpl. lia.
Qed.

(** X14. Reconciling is settled after one pass: with a consumer configuration
    that declares one dtype per column name, running the loop again on the
    overridden workflow changes no dtype and gives no warning. *)
Theorem reconcile_twice workflow (input : list (ModelInput TritonDataType)) :
  (∀ c1 c2, c1 ∈ input → c2 ∈ input →
            input_name c1 = input_name c2 → tf c1 = tf c2) →
  reconcile _triton_datatype_to_dtype
    (reconcile _triton_datatype_to_dtype workflow (Some input)).1 (Some input)
  = ((reconcile _triton_datatype_to_dtype workflow (Some input)).1, []).
Proof.
  intros Hcons. unfold reconcile.
  apply reconcile_settled. intros column d Hin Hd. simpl in Hd.
  assert (is_Some (Workflow.output_dtypes workflow !! input_name column))
    as [d0 Hd0].
  { destruct (reconcile_lookup _triton_datatype_to_dtype input (workflow, [])
                (input_name column)) as [Hsame | (column' & _ & _ & Hsome & _)];
      [| done].
    rewrite Hsame in Hd. simpl in Hd. eauto. }
  rewrite (reconcile_final _triton_datatype_to_dtype input (workflow, [])
             column d0 Hcons Hin Hd0) in Hd.
  by injection Hd.
Qed.

(** X15. The loop neither adds a column to the workflow's output dtypes nor
    removes one, and gives at most one warning per entry of the consumer
    configuration. *)
Theorem reconcile_keeps_columns workflow
    (consumer_config : option (list (ModelInput TritonDataType))) :
  dom (Workflow.output_dtypes
         (reconcile _triton_datatype_to_dtype workflow consumer_config).1)
  = dom (Workflow.output_dtypes workflow) ∧
  length (reconcile _triton_datatype_to_dtype workflow consumer_config).2
  ≤ length (default [] consumer_config).
Proof.
  destruct consumer_config as [input |]; [| done]. unfold reconcile. simpl.
  split.
  - apply set_eq. intros c. rewrite !elem_of_dom.
    destruct (reconcile_lookup _triton_datatype_to_dtype input (workflow, []) c)
      as [Hsame | (column & _ & _ & Hsome & Hfinal)].
    + by rewrite Hsame.
    + simpl in Hsome. rewrite Hfinal. split; [done | eauto].
  - apply (length_reconcile_warnings input (workflow, [])).
Qed.
End export_further.

Lemma reconcile_twice_age :
  (∀ c1 c2 : ModelInput Scenario.TritonType,
     c1 ∈ Scenario.consumer_input → c2 ∈ Scenario.consumer_input →
     input_name c1 = input_name c2 →
     Scenario.triton_dtype (data_type c1) = Scenario.triton_dtype (data_type c2)) ∧
  reconcile Scenario.triton_dtype
    (reconcile Scenario.triton_dtype Scenario.age_workflow
       (Some Scenario.consumer_input)).1 (Some Scenario.consumer_input)
  = ((reconcile Scenario.triton_dtype Scenario.age_workflow
        (Some Scenario.consumer_input)).1, []).
Proof.
  assert (∀ c1 c2 : ModelInput Scenario.TritonType,
            c1 ∈ Scenario.consumer_input → c2 ∈ Scenario.consumer_input →
            input_name c1 = input_name c2 →
            Scenario.triton_dtype (data_type c1)
            = Scenario.triton_dtype (data_type c2)) as Hcons.
  { intros c1 c2 H1 H2.
    apply elem_of_cons in H1 as [-> | H1];
      [| apply list_elem_of_singleton in H1 as ->];
      (apply elem_of_cons in H2 as [-> | H2];
       [| apply list_elem_of_singleton in H2 as ->]); by vm_compute. }
  split; [exact Hcons |].
  exact (reconcile_twice Scenario.triton_dtype Scenario.age_workflow
           Scenario.consumer_input Hcons).
Defined.
